(** * Shallow embedding of the World Runes solver (lib/solver.ts) and of the
    unlock filter of ResultsDisplay (components/ResultsDisplay.tsx).

    JavaScript numbers are modelled as [Z], strings as [string], arrays as
    lists.  Generators are modelled as the list of values they yield; every
    consumer of a generator in the solver is a [for ... of] loop whose body
    has no effect on the generator, so breaking out of the loop is the same
    as consuming a prefix of that list. *)

From Stdlib Require Import String ZArith List Bool Lia Sorting.Sorted Sorting.Permutation.
From Stdlib Require Import MSetAVL OrdersEx.
Import ListNotations.

Open Scope string_scope.
Open Scope list_scope.
Open Scope Z_scope.

(* ------------------------------------------------------------------ *)
(** ** Loops with [break] *)

(** [for (const x of xs) { body }] where the body may [break]: the body
    returns the new state and [true] when it breaks. *)
Fixpoint for_break {A S : Type} (body : S -> A -> S * bool) (xs : list A) (s : S) : S :=
  match xs with
  | [] => s
  | x :: xs' =>
      let '(s', brk) := body s x in
      if brk then s' else for_break body xs' s'
  end.

(* ------------------------------------------------------------------ *)
(** ** generateCombinations *)

Section Generator.
Context {T : Type}.

(** [backtrack(start)]: [suffix] is [items.slice(start)], [cur] is the
    shared [current] stack and [count] the shared emission counter.  The
    result is the list of yielded arrays and the final counter. *)
Fixpoint backtrack (size maxResults : Z) (suffix cur : list T) (count : Z)
  {struct suffix} : list (list T) * Z :=
  if maxResults <=? count then ([], count)
  else if Z.of_nat (length cur) =? size then ([cur], count + 1)
  else if Z.of_nat (length suffix) <? size - Z.of_nat (length cur) then ([], count)
  else
    (fix loop (l : list T) (count : Z) : list (list T) * Z :=
       match l with
       | [] => ([], count)
       | x :: l' =>
           if count <? maxResults then
             let '(o1, c1) := backtrack size maxResults l' (cur ++ [x]) count in
             let '(o2, c2) := loop l' c1 in
             (o1 ++ o2, c2)
           else ([], count)
       end) suffix count.

Definition generateCombinations (items : list T) (size maxResults : Z) : list (list T) :=
  if size =? 0 then [[]]
  else if Z.of_nat (length items) <? size then []
  else if size =? Z.of_nat (length items) then [items]
  else fst (backtrack size maxResults items [] 0).

(** The [for] loop of [backtrack], named so that lemmas can talk about it. *)
Definition bt_loop (size maxResults : Z) (cur : list T) :=
  fix loop (l : list T) (count : Z) : list (list T) * Z :=
    match l with
    | [] => ([], count)
    | x :: l' =>
        if count <? maxResults then
          let '(o1, c1) := backtrack size maxResults l' (cur ++ [x]) count in
          let '(o2, c2) := loop l' c1 in
          (o1 ++ o2, c2)
        else ([], count)
    end.

(** All [k]-element sublists of [l], in the order of index tuples. *)
Fixpoint combs (k : nat) (l : list T) : list (list T) :=
  match k, l with
  | O, _ => [[]]
  | S _, [] => []
  | S k', x :: l' => map (cons x) (combs k' l') ++ combs (S k') l'
  end.

(** What [backtrack size maxResults suffix cur count] yields: the
    continuations of [cur] by sublists of [suffix], cut to the remaining
    budget. *)
Definition bt_result (size M : Z) (suffix cur : list T) (count : Z) : list (list T) :=
  firstn (Z.to_nat (M - count))
    (map (app cur) (combs (Z.to_nat (size - Z.of_nat (length cur))) suffix)).

End Generator.

(** Index-tagged view of a list: [(i, x)] for the item [x] at index [i]. *)
Fixpoint enum_from {T : Type} (i : nat) (l : list T) : list (nat * T) :=
  match l with
  | [] => []
  | x :: l' => (i, x) :: enum_from (S i) l'
  end.

(** Strict lexicographic order on index tuples. *)
Fixpoint lex_lt (a b : list nat) : Prop :=
  match a, b with
  | [], [] => False
  | [], _ :: _ => True
  | _ :: _, [] => False
  | x :: a', y :: b' => (x < y)%nat \/ (x = y /\ lex_lt a' b')
  end.

(* ------------------------------------------------------------------ *)
(** ** Data model (lib/types.ts) *)

(** [unlockable?: boolean]: every use of the field is a truth test, so an
    absent field is [false].  [imageUrl] is not read by the solver. *)
Module Unit.
Record t := mk { id : string; name : string; cost : Z; regions : list string;
                 unlockable : bool }.
End Unit.

Module Region.
Record t := mk { id : string; name : string; color : option string;
                 requiredUnits : option Z }.
End Region.

Module EmblemAssignment.
Record t := mk { unitId : string; region : string }.
End EmblemAssignment.

Module TeamComposition.
Record t := mk { units : list Unit.t; emblemAssignments : list EmblemAssignment.t;
                 activeRegions : list string }.
End TeamComposition.

Module SolverConfig.
Record t := mk { maxBoardSize : Z; minUnits : Z; maxUnits : Z;
                 requiredUnits : option (list string);
                 excludedUnits : option (list string) }.
End SolverConfig.

(** [totalCost?: number]: [None] when the field is not set. *)
Module SolverResult.
Record t := mk { composition : TeamComposition.t; unitCount : Z; regionCount : Z;
                 totalCost : option Z }.
End SolverResult.

(* ------------------------------------------------------------------ *)
(** ** JavaScript helpers *)

(** [arr.includes(s)] on an array of strings. *)
Definition includes (l : list string) (s : string) : bool :=
  existsb (String.eqb s) l.

(** [Array.prototype.sort(cmp)]: a stable sort by the comparator. *)
Fixpoint insert_by {A} (cmp : A -> A -> Z) (x : A) (l : list A) : list A :=
  match l with
  | [] => [x]
  | y :: l' => if cmp x y <=? 0 then x :: l else y :: insert_by cmp x l'
  end.

Fixpoint sort_by {A} (cmp : A -> A -> Z) (l : list A) : list A :=
  match l with
  | [] => []
  | x :: l' => insert_by cmp x (sort_by cmp l')
  end.

(** The default comparator of [sort()] on strings (code-unit order). *)
Definition string_cmp (a b : string) : Z :=
  match String.compare a b with Lt => -1 | Eq => 0 | Gt => 1 end.

(** [Math.min(...xs)] on a non-empty array. *)
Definition list_min (xs : list Z) : Z :=
  match xs with [] => 0 | x :: xs' => fold_left Z.min xs' x end.

(** A [Map<string, number>] with insertion order: [get] and [set]. *)
Definition map_get (m : list (string * Z)) (k : string) : option Z :=
  option_map snd (find (fun p => String.eqb (fst p) k) m).

Definition map_set (m : list (string * Z)) (k : string) (v : Z) : list (string * Z) :=
  if existsb (fun p => String.eqb (fst p) k) m
  then map (fun p => if String.eqb (fst p) k then (k, v) else p) m
  else m ++ [(k, v)].

(** [(m.get(k) || 0)] *)
Definition get_or0 (m : list (string * Z)) (k : string) : Z :=
  match map_get m k with Some v => v | None => 0 end.

(** [new Set(keys)] then [add]: insertion-ordered, without repeats. *)
Definition set_add (s : list string) (k : string) : list string :=
  if includes s k then s else s ++ [k].

Module SSet := MSetAVL.Make OrdersEx.String_as_OT.

(** [region.requiredUnits || 1] *)
Definition required_or_1 (o : option Z) : Z :=
  match o with Some n => if n =? 0 then 1 else n | None => 1 end.

(* ------------------------------------------------------------------ *)
(** ** The solver (lib/solver.ts), over the catalog of lib/data.ts *)

(** Search phases, and the ghost trace of a run (newest event first): the
    start of a size iteration, the start of the brute-force phase, each
    call of [isValidComposition] and each accepted result.  The trace is
    not part of the program's output; it records its control flow. *)
Inductive Phase := Smart | Brute.

Inductive Event :=
| EvSize (size : Z)
| EvBrute (size : Z)
| EvValidate (ph : Phase) (team : list Unit.t)
| EvAccept (ph : Phase).

(** The local variables of [solveWorldRunes] that the loops update:
    [results], [seenCompositions] and the per-size [checkedCount]. *)
Record SearchState := mkState {
  results : list SolverResult.t;
  seenCompositions : SSet.t;
  checkedCount : Z;
  trace : list Event }.

Definition bump_checked (s : SearchState) : SearchState :=
  mkState (results s) (seenCompositions s) (checkedCount s + 1) (trace s).

Definition log_event (e : Event) (s : SearchState) : SearchState :=
  mkState (results s) (seenCompositions s) (checkedCount s) (e :: trace s).

(** [results.push(r); seenCompositions.add(key)] *)
Definition push_result (ph : Phase) (key : string) (r : SolverResult.t)
  (s : SearchState) : SearchState :=
  mkState (results s ++ [r]) (SSet.add key (seenCompositions s)) (checkedCount s)
          (EvAccept ph :: trace s).

(** [totalCost: teamUnits.reduce((sum, u) => sum + u.cost, 0)] *)
Definition sumCost (team : list Unit.t) : Z :=
  fold_left (fun sum u => sum + Unit.cost u) team 0.

Section Solver.
Variable units : list Unit.t.
Variable regions : list Region.t.

(** [getRegionById] *)
Definition getRegionById (id : string) : option Region.t :=
  find (fun r => String.eqb (Region.id r) id) regions.

(** [countRegionUnits] *)
Definition countRegionUnits (us : list Unit.t) : list (string * Z) :=
  fold_left (fun m u =>
    fold_left (fun m region => map_set m region (get_or0 m region + 1))
              (Unit.regions u) m) us [].

Record Validity := mkValidity {
  valid : bool; v_activeRegions : list string;
  v_emblemAssignments : list EmblemAssignment.t }.

(** [isValidComposition] *)
Definition isValidComposition (teamUnits : list Unit.t) (emblem1 emblem2 : string)
  : Validity :=
  let regionCounts := countRegionUnits teamUnits in
  match find (fun u => negb (includes (Unit.regions u) emblem1)) teamUnits with
  | None => mkValidity false [] []
  | Some unitForEmblem1 =>
      let a1 := EmblemAssignment.mk (Unit.id unitForEmblem1) emblem1 in
      let regionCounts := map_set regionCounts emblem1 (get_or0 regionCounts emblem1 + 1) in
      match find (fun u => negb (includes (Unit.regions u) emblem2)) teamUnits with
      | None => mkValidity false [] []
      | Some unitForEmblem2 =>
          let a2 := EmblemAssignment.mk (Unit.id unitForEmblem2) emblem2 in
          let regionCounts :=
            map_set regionCounts emblem2 (get_or0 regionCounts emblem2 + 1) in
          let allRegionsToCheck :=
            set_add (set_add (map fst regionCounts) emblem1) emblem2 in
          let activeRegions :=
            filter (fun regionId =>
              match getRegionById regionId with
              | None => false
              | Some region =>
                  required_or_1 (Region.requiredUnits region)
                    <=? get_or0 regionCounts regionId
              end) allRegionsToCheck in
          if Z.of_nat (length activeRegions) <? 4
          then mkValidity false activeRegions []
          else mkValidity true activeRegions [a1; a2]
      end
  end.

(** [filterUnits] *)
Definition filterUnits (us : list Unit.t) (config : SolverConfig.t) : list Unit.t :=
  let filtered :=
    match SolverConfig.requiredUnits config with
    | Some ((_ :: _) as req) => filter (fun u => includes req (Unit.id u)) us
    | _ => us
    end in
  let filtered :=
    match SolverConfig.excludedUnits config with
    | Some ((_ :: _) as exc) => filter (fun u => negb (includes exc (Unit.id u))) filtered
    | _ => filtered
    end in
  sort_by (fun a b => (if Unit.unlockable a then 1 else 0) -
                      (if Unit.unlockable b then 1 else 0)) filtered.

(** [uniqueUnits] *)
Definition uniqueUnits (arr : list Unit.t) : list Unit.t :=
  snd (fold_left (fun '(seen, out) u =>
         if SSet.mem (Unit.id u) seen then (seen, out)
         else (SSet.add (Unit.id u) seen, out ++ [u])) arr (SSet.empty, [])).

(** [teamUnits.map(u => u.id).sort().join(',')] *)
Definition compositionKey (team : list Unit.t) : string :=
  String.concat "," (sort_by string_cmp (map Unit.id team)).

Definition MAX_TOTAL_RESULTS : Z := 2000.

(** [getMaxCombinationsForSize] *)
Definition getMaxCombinationsForSize (size : Z) : Z :=
  if size <=? 2 then 10000
  else if size <=? 3 then 5000
  else if size <=? 4 then 2000
  else if size <=? 5 then 50000
  else if size <=? 6 then 20000
  else if size <=? 7 then 5000
  else 2000.

Variables emblem1 emblem2 : string.

(** [getRegionById(e)?.requiredUnits || 1] *)
Definition emblemReq (e : string) : Z :=
  match getRegionById e with
  | Some r => required_or_1 (Region.requiredUnits r)
  | None => 1
  end.

(** The quick pre-checks of the Piltover and Yordle branches of the smart
    phase: [false] means [continue] before [isValidComposition]. *)
Definition prefilter (team : list Unit.t) : bool :=
  let r1Req := emblemReq emblem1 in
  let r2Req := emblemReq emblem2 in
  let r1Count := Z.of_nat (length (filter (fun u => includes (Unit.regions u) emblem1) team)) in
  let r2Count := Z.of_nat (length (filter (fun u => includes (Unit.regions u) emblem2) team)) in
  if (r1Count + 1 <? r1Req) || (r2Count + 1 <? r2Req) then false
  else
    match find (fun u => negb (includes (Unit.regions u) emblem1)) team,
          find (fun u => negb (includes (Unit.regions u) emblem2)) team with
    | Some _, Some _ => true
    | _, _ => false
    end.

(** The validate-deduplicate-push block of the smart phase (the same text
    in all four filler branches; no [totalCost] is set there). *)
Definition smart_validate (s : SearchState) (team : list Unit.t) : SearchState :=
  let s := log_event (EvValidate Smart team) s in
  let v := isValidComposition team emblem1 emblem2 in
  if valid v then
    let key := compositionKey team in
    if SSet.mem key (seenCompositions s) then s
    else push_result Smart key
           (SolverResult.mk (TeamComposition.mk team (v_emblemAssignments v) (v_activeRegions v))
              (Z.of_nat (length team)) (Z.of_nat (length (v_activeRegions v))) None) s
  else s.

Section SizeIteration.
Variables (filteredUnits : list Unit.t) (size : Z).

Definition maxForSize : Z := getMaxCombinationsForSize size.

Definition unitsWithRegion (r : string) : list Unit.t :=
  filter (fun u => includes (Unit.regions u) r) filteredUnits.

Definition need1 : Z := Z.max 0 (emblemReq emblem1 - 1).
Definition need2 : Z := Z.max 0 (emblemReq emblem2 - 1).

Definition emblem1Groups : list (list Unit.t) :=
  if 0 <? need1 then generateCombinations (unitsWithRegion emblem1) need1 80 else [[]].
Definition emblem2Groups : list (list Unit.t) :=
  if 0 <? need2 then generateCombinations (unitsWithRegion emblem2) need2 80 else [[]].
Definition targonOptions : list Unit.t := firstn 10 (unitsWithRegion "targon").
Definition fillerPairs (r : string) : list (list Unit.t) :=
  generateCombinations (unitsWithRegion r) 2 20.

(** Body of a [for (const fillUnits of fillCombos)] loop of a filler
    branch.  [with_prefilter]: the branch runs the quick pre-checks
    (Piltover, Yordle); [with_unique]: it passes the team through
    [uniqueUnits] (Piltover, Yordle, Shadow Isles). *)
Definition fill_body (with_prefilter with_unique : bool) (teamUnits : list Unit.t)
  (s : SearchState) (fillUnits : list Unit.t) : SearchState * bool :=
  if maxForSize <=? checkedCount s then (s, true)
  else
    let fullTeam :=
      if with_unique then uniqueUnits (teamUnits ++ fillUnits) else teamUnits ++ fillUnits in
    let s := bump_checked s in
    if with_prefilter && negb (prefilter fullTeam) then (s, false)
    else (smart_validate s fullTeam, false).

(** Body of a [for (const pair of pairs.slice(0, 10))] loop of a filler
    branch. *)
Definition pair_body (with_prefilter with_unique : bool) (e1Group e2Group : list Unit.t)
  (targonUnit : Unit.t) (s : SearchState) (pair : list Unit.t) : SearchState * bool :=
  if maxForSize <=? checkedCount s then (s, true)
  else
    let members := e1Group ++ e2Group ++ targonUnit :: pair in
    let usedUnitIds := map Unit.id members in
    let teamUnits := if with_unique then uniqueUnits members else members in
    if Z.of_nat (length teamUnits) =? size then
      let s := bump_checked s in
      if with_prefilter && negb (prefilter teamUnits) then (s, false)
      else
        let s := smart_validate s teamUnits in
        (s, maxForSize <=? checkedCount s)
    else if Z.of_nat (length teamUnits) <? size then
      let remainingUnits :=
        filter (fun u => negb (includes usedUnitIds (Unit.id u))) filteredUnits in
      let remainingSlots := size - Z.of_nat (length teamUnits) in
      let fillCombos := generateCombinations remainingUnits remainingSlots 50 in
      let s := for_break (fill_body with_prefilter with_unique teamUnits) fillCombos s in
      (s, maxForSize <=? checkedCount s)
    else (s, maxForSize <=? checkedCount s).

(** Body of [for (const targonUnit of targonOptions)]: the Piltover,
    Yordle, Shadow Isles and Void branches in turn. *)
Definition targon_body (e1Group e2Group : list Unit.t) (s : SearchState)
  (targonUnit : Unit.t) : SearchState * bool :=
  let s := for_break (pair_body true true e1Group e2Group targonUnit)
             (firstn 10 (fillerPairs "piltover")) s in
  let s := for_break (pair_body true true e1Group e2Group targonUnit)
             (firstn 10 (fillerPairs "yordle")) s in
  let s := for_break (pair_body false true e1Group e2Group targonUnit)
             (firstn 10 (fillerPairs "shadow-isles")) s in
  let s := for_break (pair_body false false e1Group e2Group targonUnit)
             (firstn 10 (fillerPairs "void")) s in
  (s, maxForSize <=? checkedCount s).

Definition e2_body (e1Group : list Unit.t) (s : SearchState) (e2Group : list Unit.t)
  : SearchState * bool :=
  let s := for_break (targon_body e1Group e2Group) targonOptions s in
  (s, maxForSize <=? checkedCount s).

Definition e1_body (s : SearchState) (e1Group : list Unit.t) : SearchState * bool :=
  let s := for_break (e2_body e1Group) (firstn 60 emblem2Groups) s in
  (s, maxForSize <=? checkedCount s).

(** The smart phase of one size iteration. *)
Definition smart_phase (s : SearchState) : SearchState :=
  if (5 <=? size) && (need1 <=? Z.of_nat (length (unitsWithRegion emblem1)))
     && (need2 <=? Z.of_nat (length (unitsWithRegion emblem2)))
     && (1 <=? Z.of_nat (length (unitsWithRegion "targon")))
  then for_break e1_body (firstn 60 emblem1Groups) s
  else s.

(** Body of the brute-force [for (const teamUnits of combinationGenerator)]. *)
Definition brute_body (s : SearchState) (teamUnits : list Unit.t) : SearchState * bool :=
  let s := bump_checked s in
  if MAX_TOTAL_RESULTS <=? Z.of_nat (length (results s)) then (s, true)
  else if maxForSize <? checkedCount s then (s, true)
  else
    let s := log_event (EvValidate Brute teamUnits) s in
    let v := isValidComposition teamUnits emblem1 emblem2 in
    if valid v then
      let key := compositionKey teamUnits in
      if SSet.mem key (seenCompositions s) then (s, false)
      else
        (push_result Brute key
           (SolverResult.mk (TeamComposition.mk teamUnits (v_emblemAssignments v)
                                                (v_activeRegions v))
              (Z.of_nat (length teamUnits)) (Z.of_nat (length (v_activeRegions v)))
              (Some (sumCost teamUnits))) s, false)
    else (s, false).

(** One iteration of [for (let size = ...)] after its cap check. *)
Definition size_iteration (s : SearchState) : SearchState :=
  let s := mkState (results s) (seenCompositions s) 0 (EvSize size :: trace s) in
  let s := smart_phase s in
  if Z.of_nat (length (results s)) <? 10 then
    let s := log_event (EvBrute size) s in
    for_break brute_body
      (generateCombinations filteredUnits size (maxForSize - checkedCount s)) s
  else s.

End SizeIteration.

(** [for (let size = config.minUnits; size <= effectiveMaxUnits; size++)],
    with [fuel] the number of iterations the bounds allow. *)
Fixpoint size_loop (filteredUnits : list Unit.t) (effectiveMaxUnits : Z) (fuel : nat)
  (size : Z) (s : SearchState) : SearchState :=
  match fuel with
  | O => s
  | S fuel' =>
      if size <=? effectiveMaxUnits then
        if MAX_TOTAL_RESULTS <=? Z.of_nat (length (results s)) then s
        else size_loop filteredUnits effectiveMaxUnits fuel' (size + 1)
               (size_iteration filteredUnits size s)
      else s
  end.

(** The body of [solveWorldRunes] up to the final sort; [None] for the two
    early [return []]. *)
Definition search_run (config : SolverConfig.t) : option SearchState :=
  if (emblem1 =? "")%string || (emblem2 =? "")%string then None
  else
    match getRegionById emblem1, getRegionById emblem2 with
    | Some _, Some _ =>
        let filteredUnits := filterUnits units config in
        let effectiveMaxUnits :=
          Z.min (Z.min (SolverConfig.maxUnits config) (SolverConfig.maxBoardSize config))
                (Z.of_nat (length filteredUnits)) in
        Some (size_loop filteredUnits effectiveMaxUnits
                (Z.to_nat (effectiveMaxUnits - SolverConfig.minUnits config + 1))
                (SolverConfig.minUnits config) (mkState [] SSet.empty 0 []))
    | _, _ => None
    end.

(** The comparator of the final [results.sort]. *)
Definition result_cmp (a b : SolverResult.t) : Z :=
  if negb (SolverResult.unitCount a =? SolverResult.unitCount b)
  then SolverResult.unitCount a - SolverResult.unitCount b
  else
    let aCost := match SolverResult.totalCost a with Some c => c | None => 0 end in
    let bCost := match SolverResult.totalCost b with Some c => c | None => 0 end in
    if negb (aCost =? bCost) then aCost - bCost
    else SolverResult.regionCount b - SolverResult.regionCount a.

(** [solveWorldRunes(emblem1, emblem2, config)] *)
Definition solveWorldRunes (config : SolverConfig.t) : list SolverResult.t :=
  match search_run config with
  | None => []
  | Some s => sort_by result_cmp (results s)
  end.

End Solver.

(* ------------------------------------------------------------------ *)
(** ** The unlock filter of ResultsDisplay (components/ResultsDisplay.tsx)

    The block of [ResultsDisplay] that runs once [results] is non-empty,
    from [// Apply filters] to the computation of [unlockSuggestions]. *)

Definition targonSet : list string := ["aphelios"; "leona"; "zoe"; "taric"]%string.

Definition normalizeId (id : string) : string :=
  if includes targonSet id then "targon-1of4"%string else id.

Definition unitSignature (r : SolverResult.t) : string :=
  String.concat "|"
    (sort_by string_cmp
       (map (fun u => normalizeId (Unit.id u))
            (TeamComposition.units (SolverResult.composition r)))).

(** [u.unlockable && !unlockedSet.has(u.id)] *)
Definition isLocked (unlockedSet : list string) (u : Unit.t) : bool :=
  Unit.unlockable u && negb (includes unlockedSet (Unit.id u)).

(** [dedupMap]: first result per signature, in insertion order. *)
Definition dedupBySignature (rs : list SolverResult.t) : list SolverResult.t :=
  map snd (fold_left (fun m r =>
    let sig := unitSignature r in
    if existsb (fun p => String.eqb (fst p) sig) m then m else m ++ [(sig, r)]) rs []).

(** [results.length ? Math.min(...results.map(r => r.unitCount)) : 0] *)
Definition minUnitCount (rs : list SolverResult.t) : Z :=
  match rs with [] => 0 | _ => list_min (map SolverResult.unitCount rs) end.

Record UnlockView := mkUnlockView {
  filtered : list SolverResult.t;
  minimalAll : Z;
  minimalFiltered : Z;
  filteredHasHigherMin : bool;
  unlockSuggestions : list Unit.t }.

Definition applyUnlockFilter (results : list SolverResult.t)
  (unlockedIds : option (list string)) : UnlockView :=
  let unlockedSet := match unlockedIds with Some l => l | None => [] end in
  let filtered0 :=
    filter (fun r => negb (existsb (isLocked unlockedSet)
                                   (TeamComposition.units (SolverResult.composition r))))
           results in
  let filtered := dedupBySignature filtered0 in
  let minimalAll := minUnitCount results in
  let minimalFiltered := minUnitCount filtered in
  let filteredHasHigherMin := minimalAll <? minimalFiltered in
  let minimalAllResults :=
    filter (fun r => SolverResult.unitCount r =? minimalAll) results in
  let lockedOf r :=
    filter (isLocked unlockedSet) (TeamComposition.units (SolverResult.composition r)) in
  let unlockSuggestions :=
    if filteredHasHigherMin && negb (Nat.eqb (length minimalAllResults) 0) then
      match sort_by (fun a b => Z.of_nat (length (lockedOf a)) - Z.of_nat (length (lockedOf b)))
                    minimalAllResults with
      | bestForUnlocks :: _ => uniqueUnits (lockedOf bestForUnlocks)
      | [] => []
      end
    else [] in
  mkUnlockView filtered minimalAll minimalFiltered filteredHasHigherMin unlockSuggestions.

(* ------------------------------------------------------------------ *)
(** ** The display order of ResultsDisplay (components/ResultsDisplay.tsx)

    From [getTotalCost] to [const sortedResults = regrouped], run on the
    [filtered] list of the unlock filter.  Strings are lists of 8-bit
    characters, so [charCodeAt] is the character's code. *)

(** [r.totalCost ?? r.composition.units.reduce((sum, u) => sum + (u.cost || 0), 0)] *)
Definition getTotalCost (r : SolverResult.t) : Z :=
  match SolverResult.totalCost r with
  | Some c => c
  | None => fold_left (fun sum u => sum + Unit.cost u)
                      (TeamComposition.units (SolverResult.composition r)) 0
  end.

(** [r.composition.units.filter(u => u.cost === 4).length] *)
Definition getFourCostCount (r : SolverResult.t) : Z :=
  Z.of_nat (length (filter (fun u => Unit.cost u =? 4)
                           (TeamComposition.units (SolverResult.composition r)))).

Definition charCodes (s : string) : list Z :=
  map (fun c => Z.of_nat (Ascii.nat_of_ascii c)) (String.list_ascii_of_string s).

(** [hash = (hash * 31 + sig.charCodeAt(i)) >>> 0] over the sorted ids. *)
Definition signatureHash (r : SolverResult.t) : Z :=
  let sig := String.concat "|"
               (sort_by string_cmp (map Unit.id (TeamComposition.units (SolverResult.composition r)))) in
  fold_left (fun hash c => (hash * 31 + c) mod 2 ^ 32) (charCodes sig) 0.

(** [new Set(r.composition.units.map(u => u.id))], in insertion order. *)
Definition unitIdSet (r : SolverResult.t) : list string :=
  fold_left set_add (map Unit.id (TeamComposition.units (SolverResult.composition r))) [].

Definition symmetricDiffSize (a b : list string) : Z :=
  let common := Z.of_nat (length (filter (includes b) a)) in
  Z.of_nat (length a) + Z.of_nat (length b) - 2 * common.

(** The comparator of [baseSorted]. *)
Definition base_cmp (a b : SolverResult.t) : Z :=
  if negb (SolverResult.unitCount a =? SolverResult.unitCount b)
  then SolverResult.unitCount a - SolverResult.unitCount b
  else
    let aCost := getTotalCost a in
    let bCost := getTotalCost b in
    if negb (aCost =? bCost) then aCost - bCost
    else
      let aFour := getFourCostCount a in
      let bFour := getFourCostCount b in
      if negb (aFour =? bFour) then aFour - bFour
      else signatureHash a - signatureHash b.

(** The inner [while]: the run of results with the key of [current]. *)
Definition same_key (current r : SolverResult.t) : bool :=
  (SolverResult.unitCount r =? SolverResult.unitCount current) &&
  (getTotalCost r =? getTotalCost current) &&
  (getFourCostCount r =? getFourCostCount current).

Fixpoint take_group (current : SolverResult.t) (l : list SolverResult.t)
  : list SolverResult.t * list SolverResult.t :=
  match l with
  | [] => ([], [])
  | r :: l' =>
      if same_key current r then
        let '(g, rest) := take_group current l' in (r :: g, rest)
      else ([], l)
  end.

(** The [for (let k ...)] loop: the first index of largest difference. *)
Definition pickIdx (prevSet : list string) (remaining : list SolverResult.t) : nat :=
  let '(bestIdx, _, _) :=
    fold_left (fun '(bestIdx, bestDiff, k) r =>
      let diff := symmetricDiffSize prevSet (unitIdSet r) in
      if bestDiff <? diff then (k, diff, S k) else (bestIdx, bestDiff, S k))
      remaining (0%nat, -1, 0%nat) in
  bestIdx.

(** [remaining.splice(i, 1)]: the removed element and what is left. *)
Definition splice1 {A} (i : nat) (l : list A) : option A * list A :=
  (nth_error l i, firstn i l ++ skipn (S i) l).

(** The [while (remaining.length)] loop; [prev] is [ordered[ordered.length - 1]].
    Each round removes one element, so [length remaining] rounds suffice. *)
Fixpoint greedy (fuel : nat) (prev : SolverResult.t) (remaining : list SolverResult.t)
  : list SolverResult.t :=
  match fuel with
  | O => []
  | S fuel' =>
      match remaining with
      | [] => []
      | _ =>
          let '(picked, rest) := splice1 (pickIdx (unitIdSet prev) remaining) remaining in
          match picked with
          | Some x => x :: greedy fuel' x rest
          | None => []
          end
      end
  end.

(** Greedy reordering of a group of at least two results. *)
Definition orderGroup (group : list SolverResult.t) : list SolverResult.t :=
  match sort_by (fun a b => signatureHash a - signatureHash b) group with
  | [] => []
  | first :: remaining => first :: greedy (length remaining) first remaining
  end.

(** The outer [while (i < baseSorted.length)]; every round consumes at
    least one result, so [length baseSorted] rounds suffice. *)
Fixpoint regroup (fuel : nat) (l : list SolverResult.t) : list SolverResult.t :=
  match fuel with
  | O => []
  | S fuel' =>
      match l with
      | [] => []
      | current :: _ =>
          let '(group, rest) := take_group current l in
          (if Nat.leb (length group) 1 then group else orderGroup group) ++ regroup fuel' rest
      end
  end.

Definition sortedResults (filtered : list SolverResult.t) : list SolverResult.t :=
  let baseSorted := sort_by base_cmp filtered in
  regroup (length baseSorted) baseSorted.


(* ------------------------------------------------------------------ *)
(** ** The Regions column of [renderTable] (components/ResultsDisplay.tsx) *)

Section RenderTable.
(** [String.prototype.localeCompare] depends on the host's locale; it is
    left as a parameter. *)
Variable localeCompare : string -> string -> Z.
Variable regions : list Region.t.

(** [[...units].sort((a, b) => a.cost - b.cost || a.name.localeCompare(b.name))] *)
Definition sortedUnits (us : list Unit.t) : list Unit.t :=
  sort_by (fun a b => if negb (Unit.cost a =? Unit.cost b) then Unit.cost a - Unit.cost b
                      else localeCompare (Unit.name a) (Unit.name b)) us.

(** [regionCounts]: one per unit region (over [sortedUnits]), then one
    per emblem assignment. *)
Definition badgeCounts (c : TeamComposition.t) : list (string * Z) :=
  fold_left (fun m a => map_set m (EmblemAssignment.region a)
                                (get_or0 m (EmblemAssignment.region a) + 1))
            (TeamComposition.emblemAssignments c)
            (fold_left (fun m u =>
               fold_left (fun m r => map_set m r (get_or0 m r + 1)) (Unit.regions u) m)
               (sortedUnits (TeamComposition.units c)) []).

(** [activeRegionBadges]: [count >= (getRegionById(regionId)?.requiredUnits || 1)] *)
Definition activeRegionBadges (c : TeamComposition.t) : list (string * Z) :=
  filter (fun '(regionId, count) =>
            let req := match getRegionById regions regionId with
                       | Some region => required_or_1 (Region.requiredUnits region)
                       | None => 1
                       end in
            req <=? count) (badgeCounts c).

End RenderTable.

(* ------------------------------------------------------------------ *)
(** ** Properties stated by the specification *)

(** An emblem assignment that targets a unit of [c] lacking the region. *)
Definition carrier_ok (c : TeamComposition.t) (a : EmblemAssignment.t) : Prop :=
  exists u, In u (TeamComposition.units c) /\ Unit.id u = EmblemAssignment.unitId a /\
            ~ In (EmblemAssignment.region a) (Unit.regions u).

Definition valid_result (emblem1 emblem2 : string) (r : SolverResult.t) : Prop :=
  let c := SolverResult.composition r in
  4 <= Z.of_nat (length (TeamComposition.activeRegions c)) /\
  exists a1 a2, TeamComposition.emblemAssignments c = [a1; a2] /\
    EmblemAssignment.region a1 = emblem1 /\ EmblemAssignment.region a2 = emblem2 /\
    carrier_ok c a1 /\ carrier_ok c a2.

(** A property of every result collected so far. *)
Definition results_all (Q : SolverResult.t -> Prop) (s : SearchState) : Prop :=
  Forall Q (results s).

(** A property of the two collections the search grows: [results] and
    [seenCompositions]. *)
Definition state_ok (P : list SolverResult.t -> SSet.t -> Prop) (s : SearchState) : Prop :=
  P (results s) (seenCompositions s).

(** Trace queries. *)
Definition size_started (z : Z) (tr : list Event) : bool :=
  existsb (fun e => match e with EvSize z' => z' =? z | _ => false end) tr.
Definition brute_started (z : Z) (tr : list Event) : bool :=
  existsb (fun e => match e with EvBrute z' => z' =? z | _ => false end) tr.
Definition smart_accepts (tr : list Event) : nat :=
  length (filter (fun e => match e with EvAccept Smart => true | _ => false end) tr).

(* ------------------------------------------------------------------ *)
(** ** Concrete catalogs used to evaluate the solver *)

Definition mkU (i : string) (rs : list string) : Unit.t := Unit.mk i i 1 rs false.
Definition mkR (i : string) (n : Z) : Region.t := Region.mk i i None (Some n).

Definition config_5 : SolverConfig.t := SolverConfig.mk 5 5 5 None None.

(** Three [c] units and three [d] units; emblems [A] and [B]. *)
Definition regions_cd : list Region.t := [mkR "c" 1; mkR "d" 1; mkR "A" 1; mkR "B" 1]%string.
Definition units_cd : list Unit.t :=
  [mkU "c1" ["c"]; mkU "c2" ["c"]; mkU "c3" ["c"];
   mkU "d1" ["d"]; mkU "d2" ["d"]; mkU "d3" ["d"]]%string.
Definition config_2_4 : SolverConfig.t := SolverConfig.mk 4 2 4 None None.

(** Two Void units, one Targon unit and two others; emblems [void] (which
    needs 2 units) and [b]. *)
Definition regions_void : list Region.t :=
  [mkR "void" 2; mkR "targon" 1; mkR "b" 1; mkR "x" 1; mkR "y" 1]%string.
Definition units_void : list Unit.t :=
  [mkU "v1" ["void"]; mkU "v2" ["void"]; mkU "t" ["targon"]; mkU "x" ["x"]; mkU "y" ["y"]]%string.

(** Every unit is Shadow Isles, one of them also Targon; emblems
    [shadow-isles] (which needs 3 units) and [b]. *)
Definition regions_shadow : list Region.t :=
  [mkR "shadow-isles" 3; mkR "targon" 1; mkR "b" 1]%string.
Definition units_shadow : list Unit.t :=
  [mkU "t" ["targon"; "shadow-isles"]; mkU "s1" ["shadow-isles"]; mkU "s2" ["shadow-isles"];
   mkU "s3" ["shadow-isles"]; mkU "s4" ["shadow-isles"]]%string.

(** 51 plain units, five Targon and five Piltover units; emblems [A], [B]. *)
Definition digits : list string := ["0"; "1"; "2"; "3"; "4"; "5"; "6"; "7"; "8"; "9"]%string.
Definition regions_big : list Region.t :=
  [mkR "x" 1; mkR "targon" 1; mkR "piltover" 1; mkR "A" 1; mkR "B" 1]%string.
Definition units_big : list Unit.t :=
  map (fun d => mkU (String.append "x" d) ["x"])
      (firstn 51 (flat_map (fun a => map (fun b => String.append a b) digits) digits))%string
  ++ map (fun d => mkU (String.append "t" d) ["targon"]) ["1"; "2"; "3"; "4"; "5"]%string
  ++ map (fun d => mkU (String.append "p" d) ["piltover"]) ["1"; "2"; "3"; "4"; "5"]%string.


(** A result whose only unit is unlockable and not unlocked. *)
Definition locked_unit : Unit.t := Unit.mk "k" "k" 1 ["c"]%string true.
Definition locked_result : SolverResult.t :=
  SolverResult.mk (TeamComposition.mk [locked_unit] [] []) 1 0 None.

(* ================================================================== *)
(** * Proofs *)

(** ** The generator *)

Lemma StronglySorted_app {A} (R : A -> A -> Prop) (l1 l2 : list A) :
  StronglySorted R l1 -> StronglySorted R l2 ->
  (forall a b, In a l1 -> In b l2 -> R a b) -> StronglySorted R (l1 ++ l2).
Proof.
  induction l1 as [|x l1 IH]; simpl; intros H1 H2 H; auto.
  inversion H1; subst. constructor.
  - apply IH; auto.
  - apply Forall_app; split; auto.
    apply List.Forall_forall; intros b Hb. apply H; simpl; auto.
Qed.

Lemma StronglySorted_app_l {A} (R : A -> A -> Prop) (l1 l2 : list A) :
  StronglySorted R (l1 ++ l2) -> StronglySorted R l1.
Proof.
  induction l1 as [|x l1 IH]; simpl; intros H; [constructor|].
  inversion H; subst. constructor; auto.
  apply Forall_app in H3; tauto.
Qed.

Lemma StronglySorted_firstn {A} (R : A -> A -> Prop) n (l : list A) :
  StronglySorted R l -> StronglySorted R (firstn n l).
Proof.
  intros H. rewrite <- (firstn_skipn n l) in H.
  eapply StronglySorted_app_l; eauto.
Qed.

Lemma StronglySorted_map {A B} (R : A -> A -> Prop) (R' : B -> B -> Prop) (f : A -> B) l :
  (forall a b, R a b -> R' (f a) (f b)) ->
  StronglySorted R l -> StronglySorted R' (map f l).
Proof.
  intros Hf; induction 1; simpl; constructor; auto.
  apply Forall_map. eapply Forall_impl; [|eauto]. auto.
Qed.

Lemma lex_lt_irrefl a : ~ lex_lt a a.
Proof. induction a as [|x a IH]; simpl; [tauto|]. intros [H|[_ H]]; [lia|auto]. Qed.

Lemma StronglySorted_lex_NoDup l : StronglySorted lex_lt l -> NoDup l.
Proof.
  induction 1 as [|a l _ IH HF]; constructor; auto.
  intros Hin. rewrite List.Forall_forall in HF. apply (lex_lt_irrefl a). apply HF, Hin.
Qed.

Lemma StronglySorted_seq a n : StronglySorted lt (seq a n).
Proof.
  revert a; induction n as [|n IH]; intros a; simpl; constructor; auto.
  apply List.Forall_forall; intros x Hx. apply in_seq in Hx. lia.
Qed.

Section GeneratorProofs.
Context {T : Type}.

Lemma backtrack_unfold size M suffix (cur : list T) count :
  backtrack size M suffix cur count =
  if M <=? count then ([], count)
  else if Z.of_nat (length cur) =? size then ([cur], count + 1)
  else if Z.of_nat (length suffix) <? size - Z.of_nat (length cur) then ([], count)
  else bt_loop size M cur suffix count.
Proof. destruct suffix; reflexivity. Qed.

Lemma bt_loop_nil size M (cur : list T) count : bt_loop size M cur [] count = ([], count).
Proof. reflexivity. Qed.

Lemma bt_loop_cons size M (cur : list T) x l count :
  bt_loop size M cur (x :: l) count =
  if count <? M then
    let '(o1, c1) := backtrack size M l (cur ++ [x]) count in
    let '(o2, c2) := bt_loop size M cur l c1 in
    (o1 ++ o2, c2)
  else ([], count).
Proof. reflexivity. Qed.

Lemma combs_short k (l : list T) : (length l < k)%nat -> combs k l = [].
Proof.
  revert k; induction l as [|x l IH]; intros [|k] H; simpl in *; try lia; auto.
  rewrite (IH k) by lia. rewrite (IH (S k)) by lia. reflexivity.
Qed.

Lemma combs_all (l : list T) : combs (length l) l = [l].
Proof.
  induction l as [|x l IH]; simpl; auto.
  rewrite IH, combs_short by lia. reflexivity.
Qed.

Lemma combs_length k (l : list T) c : In c (combs k l) -> length c = k.
Proof.
  revert k c; induction l as [|x l IH]; intros [|k] c Hc; simpl in *;
    try (destruct Hc as [<-|[]]; reflexivity); try tauto.
  apply in_app_or in Hc as [Hc|Hc].
  - apply in_map_iff in Hc as (c' & <- & Hc'). simpl. f_equal. eauto.
  - eauto.
Qed.

Lemma combs_incl k (l : list T) c : In c (combs k l) -> incl c l.
Proof.
  revert k c; induction l as [|x l IH]; intros [|k] c Hc; simpl in *;
    try (destruct Hc as [<-|[]]; intros ? []); try tauto.
  apply in_app_or in Hc as [Hc|Hc].
  - apply in_map_iff in Hc as (c' & <- & Hc').
    apply incl_cons; [left; auto|]. apply incl_tl. eauto.
  - apply incl_tl. eauto.
Qed.

Lemma combs_map {U} (f : T -> U) k l : combs k (map f l) = map (map f) (combs k l).
Proof.
  revert k; induction l as [|x l IH]; intros [|k]; simpl; auto.
  rewrite map_app, !IH, !map_map. reflexivity.
Qed.

Lemma combs_sorted (R : T -> T -> Prop) k l c :
  StronglySorted R l -> In c (combs k l) -> StronglySorted R c.
Proof.
  revert k c; induction l as [|x l IH]; intros [|k] c Hl Hc; simpl in *;
    try (destruct Hc as [<-|[]]; constructor); try tauto.
  inversion Hl as [|? ? Hl' Hx]; subst.
  apply in_app_or in Hc as [Hc|Hc]; [|eauto].
  apply in_map_iff in Hc as (c' & <- & Hc'). constructor; [eauto|].
  rewrite List.Forall_forall in *. intros y Hy. apply Hx. eapply combs_incl; eauto.
Qed.

End GeneratorProofs.

Section GeneratorSpec.
Context {T : Type}.

Lemma combs_cons_S k (x : T) l :
  combs (S k) (x :: l) = map (cons x) (combs k l) ++ combs (S k) l.
Proof. reflexivity. Qed.

Lemma backtrack_spec (suffix : list T) : forall size M,
  (forall cur count, Z.of_nat (length cur) <= size ->
     backtrack size M suffix cur count =
     (bt_result size M suffix cur count,
      count + Z.of_nat (length (bt_result size M suffix cur count)))) /\
  (forall cur count, Z.of_nat (length cur) < size ->
     bt_loop size M cur suffix count =
     (bt_result size M suffix cur count,
      count + Z.of_nat (length (bt_result size M suffix cur count)))).
Proof.
  induction suffix as [|x l IH]; intros size M.
  - assert (Hloop : forall cur count, Z.of_nat (length cur) < size ->
             bt_loop size M cur [] count =
             (bt_result size M ([] : list T) cur count,
              count + Z.of_nat (length (bt_result size M ([] : list T) cur count)))).
    { intros cur count Hc. rewrite bt_loop_nil. unfold bt_result.
      rewrite combs_short by (simpl; lia). rewrite firstn_nil. simpl. f_equal; lia. }
    split; auto.
    intros cur count Hc. rewrite backtrack_unfold.
    destruct (M <=? count) eqn:E1.
    + unfold bt_result. replace (Z.to_nat (M - count)) with 0%nat by lia. simpl. f_equal; lia.
    + destruct (Z.of_nat (length cur) =? size) eqn:E2.
      * unfold bt_result. replace (Z.to_nat (size - Z.of_nat (length cur))) with 0%nat by lia.
        simpl. rewrite app_nil_r.
        destruct (Z.to_nat (M - count)) eqn:E3; [lia|]. simpl. rewrite firstn_nil. reflexivity.
      * destruct (Z.of_nat (length []) <? size - Z.of_nat (length cur)) eqn:E3.
        -- unfold bt_result. rewrite combs_short by (simpl; lia). rewrite firstn_nil.
           simpl. f_equal; lia.
        -- simpl in E3. lia.
  - assert (Hloop : forall cur count, Z.of_nat (length cur) < size ->
             bt_loop size M cur (x :: l) count =
             (bt_result size M (x :: l) cur count,
              count + Z.of_nat (length (bt_result size M (x :: l) cur count)))).
    { intros cur count Hc. rewrite bt_loop_cons.
      destruct (count <? M) eqn:E.
      - rewrite (proj1 (IH size M) (cur ++ [x]) count) by (rewrite length_app; simpl; lia).
        rewrite (proj2 (IH size M) cur) by lia.
        unfold bt_result.
        assert (Hk : Z.to_nat (size - Z.of_nat (length cur)) =
                     S (Z.to_nat (size - Z.of_nat (length (cur ++ [x]))))).
        { rewrite length_app; simpl; lia. }
        rewrite Hk, combs_cons_S, map_app, map_map.
        rewrite (map_ext (fun c => cur ++ x :: c) (app (cur ++ [x])))
          by (intros; rewrite <- app_assoc; reflexivity).
        set (A := map (app (cur ++ [x])) _).
        set (B := map (app cur) _).
        set (n := Z.to_nat (M - count)).
        rewrite firstn_app, length_firstn.
        assert (Hn : Z.to_nat (M - (count + Z.of_nat (Nat.min n (length A)))) =
                     (n - length A)%nat) by (subst n; lia).
        rewrite Hn. f_equal. rewrite !length_app, !length_firstn. lia.
      - unfold bt_result. replace (Z.to_nat (M - count)) with 0%nat by lia.
        simpl. f_equal; lia. }
    split; auto.
    intros cur count Hc. rewrite backtrack_unfold.
    destruct (M <=? count) eqn:E1.
    + unfold bt_result. replace (Z.to_nat (M - count)) with 0%nat by lia. simpl. f_equal; lia.
    + destruct (Z.of_nat (length cur) =? size) eqn:E2.
      * unfold bt_result. replace (Z.to_nat (size - Z.of_nat (length cur))) with 0%nat by lia.
        simpl. rewrite app_nil_r.
        destruct (Z.to_nat (M - count)) eqn:E3; [lia|]. simpl. rewrite firstn_nil. reflexivity.
      * destruct (Z.of_nat (length (x :: l)) <? size - Z.of_nat (length cur)) eqn:E3.
        -- unfold bt_result. rewrite combs_short by lia. rewrite firstn_nil.
           simpl. f_equal; lia.
        -- apply Hloop. lia.
Qed.

(** [generateCombinations] yields all [k]-subsets in index order, cut to
    the budget on the backtracking path only. *)
Lemma generateCombinations_combs (items : list T) k M :
  generateCombinations items (Z.of_nat k) M =
  if ((k =? 0)%nat || (length items <=? k)%nat)%bool then combs k items
  else firstn (Z.to_nat M) (combs k items).
Proof.
  unfold generateCombinations.
  destruct (Z.of_nat k =? 0) eqn:E0.
  { replace k with 0%nat by lia. destruct items; reflexivity. }
  destruct (Z.of_nat (length items) <? Z.of_nat k) eqn:E1.
  { rewrite combs_short by lia. replace ((k =? 0)%nat || (length items <=? k)%nat)%bool
      with true by (symmetry; apply orb_true_iff; right; apply Nat.leb_le; lia).
    reflexivity. }
  destruct (Z.of_nat k =? Z.of_nat (length items)) eqn:E2.
  { replace k with (length items) by lia. rewrite combs_all.
    rewrite Nat.leb_refl, orb_true_r. reflexivity. }
  replace ((k =? 0)%nat || (length items <=? k)%nat)%bool with false
    by (symmetry; apply orb_false_iff; split; [apply Nat.eqb_neq|apply Nat.leb_gt]; lia).
  rewrite (proj1 (backtrack_spec items (Z.of_nat k) M) [] 0) by (simpl; lia).
  unfold bt_result. simpl fst.
  rewrite map_id.
  replace (Z.to_nat (M - 0)) with (Z.to_nat M) by (f_equal; lia).
  replace (Z.to_nat (Z.of_nat k - 0)) with k by lia.
  reflexivity.
Qed.

Lemma enum_snd i (l : list T) : map snd (enum_from i l) = l.
Proof. revert i; induction l; simpl; intros; f_equal; auto. Qed.

Lemma enum_fst i (l : list T) : map fst (enum_from i l) = seq i (length l).
Proof. revert i; induction l; simpl; intros; f_equal; auto. Qed.

Lemma enum_nth i (l : list T) j x :
  In (j, x) (enum_from i l) -> (i <= j)%nat /\ nth_error l (j - i) = Some x.
Proof.
  revert i; induction l as [|y l IH]; simpl; intros i H; [tauto|].
  destruct H as [H|H].
  - inversion H; subst. rewrite Nat.sub_diag. auto.
  - apply IH in H as [H1 H2]. split; [lia|].
    replace (j - i)%nat with (S (j - S i)) by lia. exact H2.
Qed.

Lemma Forall2_map_both {A B C} (R : B -> C -> Prop) (f : A -> B) (g : A -> C) l :
  Forall (fun x => R (f x) (g x)) l -> Forall2 R (map f l) (map g l).
Proof. induction 1; simpl; constructor; auto. Qed.

End GeneratorSpec.

Lemma combs_lex k (l : list nat) :
  StronglySorted lt l -> StronglySorted lex_lt (combs k l).
Proof.
  revert k; induction l as [|x l IH]; intros [|k] Hl; simpl;
    try (repeat constructor; fail).
  inversion Hl as [|? ? Hl' Hx]; subst.
  apply StronglySorted_app.
  - apply (StronglySorted_map lex_lt); auto.
    intros a b Hab. simpl. right. auto.
  - apply IH; auto.
  - intros a b Ha Hb. apply in_map_iff in Ha as (a' & <- & _).
    destruct b as [|y b'] eqn:Eb.
    + apply combs_length in Hb. discriminate.
    + simpl. left. rewrite List.Forall_forall in Hx. apply Hx.
      eapply combs_incl; eauto. left; reflexivity.
Qed.

Lemma In_firstn_In {A} n (l : list A) x : In x (firstn n l) -> In x l.
Proof. intros H. rewrite <- (firstn_skipn n l). apply in_or_app. auto. Qed.

(** Every strictly increasing [k]-tuple of indices in [[s, s + m)] is
    enumerated by [combs k (seq s m)]. *)
Lemma combs_seq_complete k s m (ix : list nat) :
  length ix = k -> StronglySorted lt ix ->
  Forall (fun i => (s <= i < s + m)%nat) ix -> In ix (combs k (seq s m)).
Proof.
  revert k s ix; induction m as [|m IH]; intros k s ix Hl Hs Hr.
  - destruct ix as [|i ix]; simpl in Hl; subst; [left; reflexivity|].
    inversion Hr; lia.
  - destruct ix as [|i ix]; simpl in Hl; subst; [left; reflexivity|].
    inversion Hs as [|? ? Hs' Hi]; subst. inversion Hr as [|? ? Hri Hr']; subst.
    simpl seq. rewrite combs_cons_S. apply in_or_app.
    destruct (Nat.eq_dec i s) as [->|Hne].
    + left. apply in_map. apply IH; auto.
      rewrite List.Forall_forall in *. intros j Hj. specialize (Hi j Hj). specialize (Hr' j Hj). lia.
    + right. apply IH; simpl; auto.
      constructor; [lia|]. rewrite List.Forall_forall in *.
      intros j Hj. specialize (Hi j Hj). specialize (Hr' j Hj). lia.
Qed.

(** C6 (amended). [generateCombinations items k maxResults] yields
    k-element sublists of [items] in input order: each one is the image of
    a strictly increasing index tuple, the tuples are strictly increasing
    in lexicographic order (so none is yielded twice).  Let [full] be the
    lexicographically sorted list of all strictly increasing [k]-tuples of
    indices below [n]: on the backtracking path ([0 < k < n]) the yielded
    tuples are the first [max(0, maxResults)] of [full], otherwise all of
    [full].  So for [k = 0] it yields exactly one empty list, for [k > n]
    nothing and for [k = n] the whole list once, whatever the budget; only
    on the backtracking path is the number of yielded lists bounded by the
    budget. *)
Theorem generateCombinations_spec {T} (items : list T) (k : nat) (M : Z) :
  let out := generateCombinations items (Z.of_nat k) M in
  (exists idxs full : list (list nat),
     StronglySorted lex_lt full /\
     (forall ix, In ix full <->
        length ix = k /\ StronglySorted lt ix /\
        Forall (fun i => (i < length items)%nat) ix) /\
     idxs = (if ((0 <? k)%nat && (k <? length items)%nat)%bool
             then firstn (Z.to_nat M) full else full) /\
     StronglySorted lex_lt idxs /\ NoDup idxs /\
     Forall2 (fun ix c =>
        length ix = k /\ StronglySorted lt ix /\
        Forall (fun i => (i < length items)%nat) ix /\
        map (nth_error items) ix = map Some c) idxs out) /\
  (k = 0%nat -> out = [[]]) /\
  ((length items < k)%nat -> out = []) /\
  (k = length items -> out = [items]) /\
  ((0 < k < length items)%nat -> (length out <= Z.to_nat M)%nat).
Proof.
  intros out.
  set (cond := ((k =? 0)%nat || (length items <=? k)%nat)%bool).
  set (b := if cond then length (combs k items) else Z.to_nat M).
  assert (Hout : out = firstn b (combs k items)).
  { unfold out, b. rewrite generateCombinations_combs. fold cond.
    destruct cond; [rewrite firstn_all|]; reflexivity. }
  set (P := enum_from 0 items).
  assert (HC : combs k items = map (map snd) (combs k P))
    by (unfold P; rewrite <- combs_map, enum_snd; reflexivity).
  assert (HI : combs k (seq 0 (length items)) = map (map fst) (combs k P))
    by (unfold P; rewrite <- combs_map, enum_fst; reflexivity).
  split; [|split; [|split; [|split]]].
  - exists (firstn b (combs k (seq 0 (length items)))), (combs k (seq 0 (length items))).
    assert (HS : StronglySorted lex_lt (firstn b (combs k (seq 0 (length items)))))
      by (apply StronglySorted_firstn, combs_lex, StronglySorted_seq).
    split; [apply combs_lex, StronglySorted_seq|].
    split.
    { intros ix. split.
      - intros Hc. split; [eapply combs_length; exact Hc|].
        split; [eapply combs_sorted; [apply StronglySorted_seq|exact Hc]|].
        apply List.Forall_forall. intros i Hi.
        apply (combs_incl _ _ _ Hc) in Hi. apply in_seq in Hi. lia.
      - intros (Hl & Hs & Hr). apply combs_seq_complete; auto.
        eapply Forall_impl; [|exact Hr]. simpl; intros; lia. }
    split.
    { unfold b. destruct cond eqn:Ec.
      - assert (E : ((0 <? k)%nat && (k <? length items)%nat)%bool = false).
        { unfold cond in Ec. apply orb_true_iff in Ec as [E|E].
          - apply Nat.eqb_eq in E. subst. reflexivity.
          - apply Nat.leb_le in E. apply andb_false_iff. right. apply Nat.ltb_ge. lia. }
        rewrite E.
        replace (length (combs k items)) with (length (combs k (seq 0 (length items))))
          by (rewrite HC, HI, !length_map; reflexivity).
        apply firstn_all.
      - assert (E : ((0 <? k)%nat && (k <? length items)%nat)%bool = true).
        { unfold cond in Ec. apply orb_false_iff in Ec as [E1 E2].
          apply Nat.eqb_neq in E1. apply Nat.leb_gt in E2.
          apply andb_true_iff. split; apply Nat.ltb_lt; lia. }
        rewrite E. reflexivity. }
    split; [exact HS|split; [apply StronglySorted_lex_NoDup; exact HS|]].
    rewrite Hout, HC, HI, !firstn_map. apply Forall2_map_both.
    apply List.Forall_forall. intros c Hc. apply In_firstn_In in Hc.
    split; [|split; [|split]].
    + rewrite length_map. eapply combs_length; eauto.
    + apply (combs_sorted lt k (seq 0 (length items))); [apply StronglySorted_seq|].
      rewrite HI. apply in_map. exact Hc.
    + apply List.Forall_forall. intros i Hi. apply in_map_iff in Hi as ([j x] & <- & Hp).
      apply (combs_incl k P c Hc) in Hp. apply (in_map fst) in Hp.
      unfold P in Hp. rewrite enum_fst in Hp. apply in_seq in Hp. simpl in *. lia.
    + rewrite !map_map. apply map_ext_in. intros [j x] Hp. simpl.
      apply (combs_incl k P c Hc) in Hp. apply enum_nth in Hp as [_ Hp].
      rewrite Nat.sub_0_r in Hp. exact Hp.
  - intros ->. reflexivity.
  - intros Hk. rewrite Hout. unfold b, cond.
    replace ((k =? 0)%nat || (length items <=? k)%nat)%bool with true
      by (symmetry; apply orb_true_iff; right; apply Nat.leb_le; lia).
    rewrite combs_short by exact Hk. reflexivity.
  - intros Hk. rewrite Hout. unfold b, cond. rewrite Hk, Nat.leb_refl, orb_true_r.
    rewrite combs_all. reflexivity.
  - intros Hk. rewrite Hout. unfold b, cond.
    replace ((k =? 0)%nat || (length items <=? k)%nat)%bool with false
      by (symmetry; apply orb_false_iff; split; [apply Nat.eqb_neq|apply Nat.leb_gt]; lia).
    rewrite length_firstn. lia.
Qed.

(** C6 (counterexample). With a budget of 0, the [k = 0] and [k = n]
    short-circuits still yield one list each, so "at most maxResults
    emissions" fails. *)
Lemma generateCombinations_budget_cex :
  (length (generateCombinations [10%nat; 20%nat] 0 0) > Z.to_nat 0)%nat /\
  (length (generateCombinations [10%nat; 20%nat] 2 0) > Z.to_nat 0)%nat.
Proof. split; vm_compute; lia. Qed.

(** ** Loops and library facts *)

Lemma for_break_inv {A S} (P : S -> Prop) (body : S -> A -> S * bool) :
  (forall s x, P s -> P (fst (body s x))) ->
  forall xs s, P s -> P (for_break body xs s).
Proof.
  intros Hb xs; induction xs as [|x xs IH]; intros s Hs; simpl; auto.
  specialize (Hb s x Hs). destruct (body s x) as [s' brk].
  destruct brk; simpl in *; auto.
Qed.

Lemma includes_In l s : includes l s = true <-> In s l.
Proof.
  unfold includes. rewrite existsb_exists. split.
  - intros (x & Hx & E). apply String.eqb_eq in E. subst; auto.
  - intros H. exists s. split; auto. apply String.eqb_refl.
Qed.

Lemma insert_by_perm {A} (cmp : A -> A -> Z) x l : Permutation (insert_by cmp x l) (x :: l).
Proof.
  induction l as [|y l IH]; simpl; auto.
  destruct (cmp x y <=? 0); auto.
  eapply perm_trans; [apply perm_skip, IH|apply perm_swap].
Qed.

Lemma sort_by_perm {A} (cmp : A -> A -> Z) l : Permutation (sort_by cmp l) l.
Proof.
  induction l as [|x l IH]; simpl; auto.
  eapply perm_trans; [apply insert_by_perm|]. apply perm_skip, IH.
Qed.

(** ** The validator *)

Lemma isValidComposition_sound regions team e1 e2 :
  valid (isValidComposition regions team e1 e2) = true ->
  4 <= Z.of_nat (length (v_activeRegions (isValidComposition regions team e1 e2))) /\
  exists u1 u2, In u1 team /\ ~ In e1 (Unit.regions u1) /\
    In u2 team /\ ~ In e2 (Unit.regions u2) /\
    v_emblemAssignments (isValidComposition regions team e1 e2) =
      [EmblemAssignment.mk (Unit.id u1) e1; EmblemAssignment.mk (Unit.id u2) e2].
Proof.
  unfold isValidComposition. cbv zeta.
  destruct (find (fun u => negb (includes (Unit.regions u) e1)) team) as [u1|] eqn:F1;
    [|discriminate].
  destruct (find (fun u => negb (includes (Unit.regions u) e2)) team) as [u2|] eqn:F2;
    [|discriminate].
  match goal with |- context [if ?c then _ else _] => destruct c eqn:E end;
    simpl; [discriminate|].
  intros _. apply find_some in F1 as [H1 N1]. apply find_some in F2 as [H2 N2].
  apply negb_true_iff in N1, N2. split; [lia|].
  exists u1, u2. repeat split; auto.
  - intros H. apply includes_In in H. congruence.
  - intros H. apply includes_In in H. congruence.
Qed.

(** ** Every result of the search comes from a valid composition *)

Section SearchInvariant.
Variables (regions : list Region.t) (emblem1 emblem2 : string).
Variable Q : SolverResult.t -> Prop.

(** [Q] holds of every result the search can push: a composition the
    validator accepted, with any [totalCost]. *)
Hypothesis Q_pushed : forall team c,
  valid (isValidComposition regions team emblem1 emblem2) = true ->
  Q (SolverResult.mk
       (TeamComposition.mk team
          (v_emblemAssignments (isValidComposition regions team emblem1 emblem2))
          (v_activeRegions (isValidComposition regions team emblem1 emblem2)))
       (Z.of_nat (length team))
       (Z.of_nat (length (v_activeRegions (isValidComposition regions team emblem1 emblem2))))
       c).

Local Abbreviation results_ok := (results_all Q).

Lemma smart_validate_ok s team :
  results_ok s -> results_ok (smart_validate regions emblem1 emblem2 s team).
Proof.
  unfold results_all, smart_validate. cbv zeta.
  destruct (valid (isValidComposition regions team emblem1 emblem2)) eqn:V; auto.
  destruct (SSet.mem _ _); auto.
  intros H. simpl. apply Forall_app. split; auto.
Qed.

Ltac close_ok :=
  simpl fst;
  first
    [ assumption
    | apply smart_validate_ok; assumption
    | apply (for_break_inv results_ok); auto ].

Lemma fill_body_ok size wp wu team s fill :
  results_ok s ->
  results_ok (fst (fill_body regions emblem1 emblem2 size wp wu team s fill)).
Proof.
  intros H. unfold fill_body. cbv zeta.
  repeat match goal with |- context [if ?b then _ else _] => destruct b end; close_ok.
Qed.

Lemma pair_body_ok fu size wp wu g1 g2 t s pair :
  results_ok s ->
  results_ok (fst (pair_body regions emblem1 emblem2 fu size wp wu g1 g2 t s pair)).
Proof.
  intros H. unfold pair_body. cbv zeta.
  repeat match goal with |- context [if ?b then _ else _] => destruct b end;
    close_ok; intros; apply fill_body_ok; auto.
Qed.

Lemma targon_body_ok fu size g1 g2 s t :
  results_ok s ->
  results_ok (fst (targon_body regions emblem1 emblem2 fu size g1 g2 s t)).
Proof.
  intros H. unfold targon_body. cbv zeta. simpl fst.
  repeat (apply (for_break_inv results_ok); [intros; apply pair_body_ok; auto|]).
  exact H.
Qed.

Lemma e2_body_ok fu size g1 s g2 :
  results_ok s -> results_ok (fst (e2_body regions emblem1 emblem2 fu size g1 s g2)).
Proof.
  intros H. unfold e2_body. simpl fst.
  apply (for_break_inv results_ok); auto. intros; apply targon_body_ok; auto.
Qed.

Lemma e1_body_ok fu size s g1 :
  results_ok s -> results_ok (fst (e1_body regions emblem1 emblem2 fu size s g1)).
Proof.
  intros H. unfold e1_body. simpl fst.
  apply (for_break_inv results_ok); auto. intros; apply e2_body_ok; auto.
Qed.

Lemma smart_phase_ok fu size s :
  results_ok s -> results_ok (smart_phase regions emblem1 emblem2 fu size s).
Proof.
  intros H. unfold smart_phase.
  destruct (_ && _); auto.
  apply (for_break_inv results_ok); auto. intros; apply e1_body_ok; auto.
Qed.

Lemma brute_body_ok size s team :
  results_ok s -> results_ok (fst (brute_body regions emblem1 emblem2 size s team)).
Proof.
  intros H. unfold brute_body. cbv zeta.
  destruct (_ <=? _); [exact H|]. destruct (_ <? _); [exact H|].
  destruct (valid (isValidComposition regions team emblem1 emblem2)) eqn:V; [|exact H].
  destruct (SSet.mem _ _); [exact H|].
  simpl. apply Forall_app. split; [exact H|]. constructor; auto.
Qed.

Lemma size_iteration_ok fu size s :
  results_ok s -> results_ok (size_iteration regions emblem1 emblem2 fu size s).
Proof.
  intros H. unfold size_iteration. cbv zeta.
  assert (H1 : results_ok (smart_phase regions emblem1 emblem2 fu size
                 (mkState (results s) (seenCompositions s) 0 (EvSize size :: trace s))))
    by (apply smart_phase_ok; exact H).
  destruct (_ <? 10); auto.
  apply (for_break_inv results_ok); auto. intros; apply brute_body_ok; auto.
Qed.

Lemma size_loop_ok fu eff fuel size s :
  results_ok s -> results_ok (size_loop regions emblem1 emblem2 fu eff fuel size s).
Proof.
  revert size s; induction fuel as [|fuel IH]; intros size s H; simpl; auto.
  destruct (size <=? eff); auto. destruct (_ <=? _); auto.
  apply IH, size_iteration_ok, H.
Qed.

Lemma solveWorldRunes_results_ok units config :
  Forall Q (solveWorldRunes units regions emblem1 emblem2 config).
Proof.
  unfold solveWorldRunes, search_run.
  destruct (_ || _); [constructor|].
  destruct (getRegionById regions emblem1); [|constructor].
  destruct (getRegionById regions emblem2); [|constructor].
  apply (Permutation_Forall (Permutation_sym (sort_by_perm _ _))).
  apply size_loop_ok. constructor.
Qed.

End SearchInvariant.

Lemma valid_result_pushed regions emblem1 emblem2 team c :
  valid (isValidComposition regions team emblem1 emblem2) = true ->
  valid_result emblem1 emblem2
    (SolverResult.mk
       (TeamComposition.mk team
          (v_emblemAssignments (isValidComposition regions team emblem1 emblem2))
          (v_activeRegions (isValidComposition regions team emblem1 emblem2)))
       (Z.of_nat (length team))
       (Z.of_nat (length (v_activeRegions (isValidComposition regions team emblem1 emblem2))))
       c).
Proof.
  intros V. destruct (isValidComposition_sound regions team emblem1 emblem2 V)
    as [Hlen [u1 [u2 [I1 [N1 [I2 [N2 EA]]]]]]].
  unfold valid_result; simpl. split; [exact Hlen|].
  rewrite EA. do 2 eexists. split; [reflexivity|]. simpl.
  repeat split; [exists u1 | exists u2]; simpl; auto.
Qed.

(** C1: every result returned by [solveWorldRunes] has at least four active
    regions, and its two emblem assignments are exactly one for each emblem
    region, each targeting a unit of the composition that does not carry
    that region natively. *)
Theorem solveWorldRunes_valid units regions emblem1 emblem2 config :
  Forall (valid_result emblem1 emblem2)
    (solveWorldRunes units regions emblem1 emblem2 config).
Proof.
  apply solveWorldRunes_results_ok. intros team c V.
  apply valid_result_pushed; exact V.
Qed.

(** ** Unknown emblems *)

(** C8: if one of the two emblem ids names no region of the catalog,
    [solveWorldRunes] returns the empty list. *)
Theorem solveWorldRunes_unknown_emblem units regions emblem1 emblem2 config :
  getRegionById regions emblem1 = None \/ getRegionById regions emblem2 = None ->
  solveWorldRunes units regions emblem1 emblem2 config = [].
Proof.
  intros H. unfold solveWorldRunes, search_run.
  destruct (_ || _); [reflexivity|].
  destruct H as [H | H]; rewrite H; [reflexivity|].
  destruct (getRegionById regions emblem1); reflexivity.
Qed.

Lemma solveWorldRunes_unknown_emblem_witness :
  (getRegionById regions_cd "Z"%string = None \/ getRegionById regions_cd "A"%string = None) /\
  solveWorldRunes units_cd regions_cd "Z"%string "A"%string config_2_4 = [].
Proof.
  split; [left; vm_compute; reflexivity|].
  apply solveWorldRunes_unknown_emblem. left; vm_compute; reflexivity.
Defined.

(** ** The unlock filter *)

Lemma fold_min_bounds xs x :
  fold_left Z.min xs x <= x /\ Forall (fun y => fold_left Z.min xs x <= y) xs.
Proof.
  revert x; induction xs as [|y xs IH]; intros x; simpl; [split; [lia | constructor]|].
  destruct (IH (Z.min x y)) as [H1 H2]. split; [lia|]. constructor; [lia | exact H2].
Qed.

Lemma fold_min_in xs x : In (fold_left Z.min xs x) (x :: xs).
Proof.
  revert x; induction xs as [|y xs IH]; intros x; simpl; [auto|].
  destruct (IH (Z.min x y)) as [E | I]; [|simpl in I; tauto].
  rewrite <- E. destruct (Z.min_spec x y) as [[_ M] | [_ M]]; rewrite M; simpl; auto.
Qed.

Lemma list_min_le xs y : In y xs -> list_min xs <= y.
Proof.
  destruct xs as [|x xs]; [intros []|]. unfold list_min.
  destruct (fold_min_bounds xs x) as [H1 H2]. intros [E | I]; [subst; exact H1|].
  rewrite List.Forall_forall in H2. auto.
Qed.

Lemma list_min_in xs : xs <> [] -> In (list_min xs) xs.
Proof. destruct xs as [|x xs]; [congruence|]. intros _. apply fold_min_in. Qed.

Lemma fold_grow {A} (f : list (string * A) -> A -> list (string * A))
  (Hf : forall m r, f m r = m \/ exists k, f m r = m ++ [(k, r)]) :
  forall rs m, incl (map snd (fold_left f rs m)) (map snd m ++ rs) /\
               (length (fold_left f rs m) <= length m + length rs)%nat.
Proof.
  induction rs as [|r rs IH]; intros m; simpl.
  - rewrite app_nil_r. split; [apply incl_refl | lia].
  - destruct (IH (f m r)) as [H1 H2]. destruct (Hf m r) as [E | [k E]]; rewrite E in *.
    + split; [|lia]. eapply incl_tran; [exact H1|].
      apply incl_app; [apply incl_appl, incl_refl | intros x Hx; apply in_app_iff; simpl; auto].
    + rewrite length_app in H2; simpl in H2. split; [|lia].
      eapply incl_tran; [exact H1|]. rewrite map_app. simpl.
      rewrite <- app_assoc. apply incl_refl.
Qed.

Lemma dedupBySignature_sub rs :
  incl (dedupBySignature rs) rs /\ (length (dedupBySignature rs) <= length rs)%nat.
Proof.
  unfold dedupBySignature.
  edestruct (fold_grow (A := SolverResult.t)) as [H1 H2].
  2: { split; [exact H1 | rewrite length_map; exact H2]. }
  intros m r. cbv beta.
  match goal with |- context [if ?b then _ else _] => destruct b end;
    [left; reflexivity | right; eexists; reflexivity].
Qed.

Lemma minUnitCount_le rs r : In r rs -> minUnitCount rs <= SolverResult.unitCount r.
Proof.
  intros I. destruct rs as [|r0 rs]; [destruct I|].
  apply list_min_le, in_map, I.
Qed.

Lemma minUnitCount_in rs :
  rs <> [] -> exists r, In r rs /\ minUnitCount rs = SolverResult.unitCount r.
Proof.
  intros N. assert (M : map SolverResult.unitCount rs <> []) by (destruct rs; simpl; congruence).
  destruct (proj1 (in_map_iff _ _ _) (list_min_in _ M)) as [r [E I]].
  exists r. split; [exact I|]. destruct rs; [congruence|]. symmetry; exact E.
Qed.

Lemma applyUnlockFilter_filtered_sub results unlockedIds :
  incl (filtered (applyUnlockFilter results unlockedIds)) results /\
  (length (filtered (applyUnlockFilter results unlockedIds)) <= length results)%nat.
Proof.
  unfold applyUnlockFilter. cbv zeta. cbn [filtered].
  destruct (dedupBySignature_sub
    (filter (fun r => negb (existsb (isLocked (match unlockedIds with Some l => l | None => [] end))
                                    (TeamComposition.units (SolverResult.composition r))))
            results)) as [H1 H2].
  split.
  - eapply incl_tran; [exact H1|]. intros x Hx. apply filter_In in Hx. tauto.
  - etransitivity; [exact H2|]. apply filter_length_le.
Qed.

(** C9: the unlock filter never lengthens the result list, and when the
    filtered list is non-empty its minimum [unitCount] is at least the
    minimum [unitCount] of the input list. *)
Theorem applyUnlockFilter_min_monotone results unlockedIds :
  let v := applyUnlockFilter results unlockedIds in
  (length (filtered v) <= length results)%nat /\
  (filtered v <> [] -> minimalAll v <= minimalFiltered v).
Proof.
  cbv zeta. destruct (applyUnlockFilter_filtered_sub results unlockedIds) as [I L].
  split; [exact L|]. intros N.
  assert (E1 : minimalAll (applyUnlockFilter results unlockedIds) = minUnitCount results)
    by reflexivity.
  assert (E2 : minimalFiltered (applyUnlockFilter results unlockedIds) =
               minUnitCount (filtered (applyUnlockFilter results unlockedIds)))
    by reflexivity.
  rewrite E1, E2. destruct (minUnitCount_in _ N) as [r [Ir Er]].
  rewrite Er. apply minUnitCount_le, I, Ir.
Qed.

(** C10: when the filter keeps no result, the filtered minimum is taken as 0;
    as unit counts are never negative the higher-minimum trigger is off and
    no unlock suggestion is produced. *)
Theorem applyUnlockFilter_empty_no_suggestions results unlockedIds :
  Forall (fun r => 0 <= SolverResult.unitCount r) results ->
  filtered (applyUnlockFilter results unlockedIds) = [] ->
  filteredHasHigherMin (applyUnlockFilter results unlockedIds) = false /\
  unlockSuggestions (applyUnlockFilter results unlockedIds) = [].
Proof.
  intros Hpos Hf.
  assert (Hm : 0 <= minUnitCount results).
  { destruct results as [|r rs]; [simpl; lia|].
    destruct (minUnitCount_in (r :: rs)) as [r' [I E]]; [discriminate|].
    rewrite E. rewrite List.Forall_forall in Hpos. apply Hpos, I. }
  assert (Hb : filteredHasHigherMin (applyUnlockFilter results unlockedIds) = false).
  { change ((minUnitCount results <? minUnitCount (filtered (applyUnlockFilter results unlockedIds)))
            = false).
    rewrite Hf. simpl. apply Z.ltb_ge. exact Hm. }
  split; [exact Hb|].
  revert Hb. unfold applyUnlockFilter. cbv zeta. cbn [filteredHasHigherMin unlockSuggestions].
  intros Hb. rewrite Hb. reflexivity.
Qed.

Lemma applyUnlockFilter_empty_no_suggestions_witness :
  Forall (fun r => 0 <= SolverResult.unitCount r) [locked_result] /\
  filtered (applyUnlockFilter [locked_result] None) = [] /\
  filteredHasHigherMin (applyUnlockFilter [locked_result] None) = false /\
  unlockSuggestions (applyUnlockFilter [locked_result] None) = [].
Proof.
  assert (H1 : Forall (fun r => 0 <= SolverResult.unitCount r) [locked_result])
    by (constructor; [simpl; lia | constructor]).
  assert (H2 : filtered (applyUnlockFilter [locked_result] None) = [])
    by (vm_compute; reflexivity).
  split; [exact H1|]. split; [exact H2|].
  apply applyUnlockFilter_empty_no_suggestions; [exact H1 | exact H2].
Defined.

(** ** When the brute-force phase runs *)

Lemma brute_body_trace regions emblem1 emblem2 size s team :
  exists pre, trace (fst (brute_body regions emblem1 emblem2 size s team)) = pre ++ trace s.
Proof.
  unfold brute_body. cbv zeta.
  repeat match goal with |- context [if ?b then _ else _] => destruct b end; simpl;
    first [ exists []; reflexivity | eexists [_]; reflexivity | eexists [_; _]; reflexivity ].
Qed.

Lemma for_break_brute_trace regions emblem1 emblem2 size teams s :
  exists pre, trace (for_break (brute_body regions emblem1 emblem2 size) teams s) = pre ++ trace s.
Proof.
  apply (for_break_inv (fun s' => exists pre, trace s' = pre ++ trace s)).
  - intros s' team [pre E]. destruct (brute_body_trace regions emblem1 emblem2 size s' team)
      as [pre' E']. exists (pre' ++ pre). rewrite E', E, app_assoc. reflexivity.
  - exists []. reflexivity.
Qed.

(** C7 (counterexample). With three [c] and three [d] units and sizes 2 to 4,
    the smart phase accepts nothing at any size (sizes below 5 skip it), yet
    the size-4 iteration starts without attempting brute force: the 27
    results found by brute force at sizes 2 and 3 already reach the bound. *)
Lemma brute_gate_cex :
  match search_run units_cd regions_cd "A"%string "B"%string config_2_4 with
  | Some s => size_started 4 (trace s) = true /\ brute_started 4 (trace s) = false /\
              smart_accepts (trace s) = 0%nat /\ length (results s) = 27%nat
  | None => False
  end.
Proof. vm_compute. repeat split. Qed.

(** C7 (amended). In the iteration for [size], brute force is attempted
    (the [EvBrute size] event is logged right after the smart phase) if and
    only if the total number of results collected so far, by both phases and
    over all sizes processed, including this size's smart phase, is below 10. *)
Theorem size_iteration_brute_iff regions emblem1 emblem2 filteredUnits size s :
  let s1 := smart_phase regions emblem1 emblem2 filteredUnits size
              (mkState (results s) (seenCompositions s) 0 (EvSize size :: trace s)) in
  (exists pre, trace (size_iteration regions emblem1 emblem2 filteredUnits size s)
               = pre ++ EvBrute size :: trace s1) <->
  Z.of_nat (length (results s1)) < 10.
Proof.
  cbv zeta. unfold size_iteration. cbv zeta.
  set (s1 := smart_phase regions emblem1 emblem2 filteredUnits size
               (mkState (results s) (seenCompositions s) 0 (EvSize size :: trace s))).
  destruct (Z.of_nat (length (results s1)) <? 10) eqn:L.
  - split; [intros _; apply Z.ltb_lt, L|]. intros _.
    apply for_break_brute_trace.
  - split; [|intros H; apply Z.ltb_ge in L; lia].
    intros [pre E]. apply (f_equal (@length Event)) in E.
    rewrite length_app in E. simpl in E. lia.
Qed.

(** ** Evaluations of the search on concrete catalogs *)

(** C2 (code evaluation). The Void filler branch of the smart phase does
    not pass its team through [uniqueUnits]: with two Void units and Void as
    the first emblem, the first returned composition lists [v1] twice. *)
Lemma void_branch_duplicate_unit :
  match solveWorldRunes units_void regions_void "void"%string "b"%string config_5 with
  | r :: _ =>
      map Unit.id (TeamComposition.units (SolverResult.composition r))
        = ["v1"; "t"; "v1"; "v2"; "x"]%string /\
      ~ NoDup (map Unit.id (TeamComposition.units (SolverResult.composition r)))
  | [] => False
  end.
Proof.
  vm_compute. split; [reflexivity|].
  intros H. inversion_clear H as [|? ? Hn _]. apply Hn. simpl; auto.
Qed.

(** C3 (code evaluation). The smart phase pushes without checking
    [MAX_TOTAL_RESULTS]: one size-5 iteration over 51 plain units, five
    Targon and five Piltover units returns 2500 results. *)
Lemma smart_phase_exceeds_cap :
  length (solveWorldRunes units_big regions_big "A"%string "B"%string config_5) = 2500%nat.
Proof. vm_compute. reflexivity. Qed.

(** C4 (code evaluation). The Shadow Isles filler branch calls the validator
    on teams the prefilter rejects: here every unit carries Shadow Isles, so
    no unit can carry the first emblem, and such a team is still validated. *)
Lemma shadow_branch_skips_prefilter :
  match search_run units_shadow regions_shadow "shadow-isles"%string "b"%string config_5 with
  | Some s =>
      existsb (fun e => match e with
                        | EvValidate Smart team =>
                            negb (prefilter regions_shadow "shadow-isles"%string "b"%string team)
                        | _ => false
                        end) (trace s) = true
  | None => False
  end.
Proof. vm_compute. reflexivity. Qed.

(** C5 (code evaluation). Results pushed by the smart phase carry no
    [totalCost]; only brute-force results get the sum of unit costs. *)
Lemma smart_result_without_cost :
  match solveWorldRunes units_void regions_void "void"%string "b"%string config_5 with
  | r :: _ =>
      SolverResult.totalCost r = None /\
      sumCost (TeamComposition.units (SolverResult.composition r)) = 5
  | [] => False
  end.
Proof. vm_compute. split; reflexivity. Qed.

(* ------------------------------------------------------------------ *)
(** ** Further properties of the code *)

Lemma for_break_inv_in {A S} (P : S -> Prop) (body : S -> A -> S * bool) xs :
  (forall s x, In x xs -> P s -> P (fst (body s x))) ->
  forall s, P s -> P (for_break body xs s).
Proof.
  induction xs as [|x xs IH]; intros Hb s Hs; simpl; auto.
  assert (H1 := Hb s x (or_introl eq_refl) Hs). destruct (body s x) as [s' brk].
  destruct brk; simpl in *; [exact H1|].
  apply IH; [intros s0 y Hy; apply Hb; right; exact Hy | exact H1].
Qed.

Section GeneratorOut.
Context {T : Type}.

Lemma backtrack_out size M (n : nat) : forall (suffix cur : list T) count c,
  (length suffix <= n)%nat ->
  In c (fst (backtrack size M suffix cur count)) ->
  Z.of_nat (length c) = size /\ incl c (cur ++ suffix).
Proof.
  induction n as [|n IH]; intros suffix cur count c Hl Hc;
    rewrite backtrack_unfold in Hc;
    destruct (M <=? count); [destruct Hc| |destruct Hc|];
    (destruct (Z.of_nat (length cur) =? size) eqn:E;
      [destruct Hc as [<- | []]; split; [lia | apply incl_appl, incl_refl]|]);
    (destruct (_ <? _); [destruct Hc|]).
  - destruct suffix; [destruct Hc | simpl in Hl; lia].
  - assert (Hloop : forall l count, (length l <= S n)%nat ->
             In c (fst (bt_loop size M cur l count)) ->
             Z.of_nat (length c) = size /\ incl c (cur ++ l)).
    { induction l as [|x l IHl]; intros cnt Hl' Hc'; [destruct Hc'|].
      rewrite bt_loop_cons in Hc'. destruct (cnt <? M); [|destruct Hc'].
      destruct (backtrack size M l (cur ++ [x]) cnt) as [o1 c1] eqn:B.
      destruct (bt_loop size M cur l c1) as [o2 c2] eqn:L.
      simpl in Hc'. apply in_app_iff in Hc' as [H1 | H2].
      - destruct (IH l (cur ++ [x]) cnt c) as [Hlen Hinc]; [simpl in Hl'; lia | rewrite B; exact H1|].
        split; [exact Hlen|]. rewrite <- app_assoc in Hinc. exact Hinc.
      - destruct (IHl c1) as [Hlen Hinc]; [simpl in Hl'; lia | rewrite L; exact H2|].
        split; [exact Hlen|]. intros y Hy. apply Hinc in Hy. apply in_app_iff in Hy.
        apply in_app_iff. simpl. tauto. }
    apply (Hloop suffix count); auto.
Qed.

(** Every array [generateCombinations items size maxResults] yields has
    [size] elements, all taken from [items]. *)
Lemma generateCombinations_out (items : list T) size M c :
  In c (generateCombinations items size M) ->
  Z.of_nat (length c) = size /\ incl c items.
Proof.
  unfold generateCombinations.
  destruct (size =? 0) eqn:E0; [intros [<- | []]; split; [simpl; lia | intros x []]|].
  destruct (_ <? size); [intros []|].
  destruct (size =? Z.of_nat (length items)) eqn:E2.
  { simpl. intros [<- | []]. split; [lia | apply incl_refl]. }
  intros Hc. apply (backtrack_out size M (length items) items [] 0 c); auto.
Qed.

End GeneratorOut.

(** ** [uniqueUnits] *)

Lemma uniqueUnits_fold (l : list Unit.t) : forall seen out,
  (forall k, SSet.In k seen <-> In k (map Unit.id out)) ->
  let r := fold_left (fun '(seen, out) u =>
             if SSet.mem (Unit.id u) seen then (seen, out)
             else (SSet.add (Unit.id u) seen, out ++ [u])) l (seen, out) in
  (forall k, SSet.In k (fst r) <-> In k (map Unit.id (snd r))) /\
  (exists out', snd r = out ++ out' /\ incl out' l /\ (length out' <= length l)%nat) /\
  (NoDup (map Unit.id out) -> NoDup (map Unit.id (snd r))) /\
  (forall u, In u l -> In (Unit.id u) (map Unit.id (snd r))) /\
  (NoDup (map Unit.id (out ++ l)) -> snd r = out ++ l).
Proof.
  induction l as [|u l IH]; intros seen out Hs; cbv zeta.
  { simpl. split; [exact Hs|]. split.
    - exists []. rewrite app_nil_r. split; [reflexivity|]. split; [intros x []|simpl; lia].
    - split; [auto|]. split; [intros u []|]. intros _; rewrite app_nil_r; reflexivity. }
  simpl fold_left. destruct (SSet.mem (Unit.id u) seen) eqn:M.
  - apply SSet.mem_spec, Hs in M.
    destruct (IH seen out Hs) as (H1 & (o & E & I & L) & H3 & H4 & H5).
    split; [exact H1|]. split; [|split; [exact H3|split]].
    + exists o. split; [exact E|]. split; [intros x Hx; right; auto | simpl; lia].
    + intros v [<- | Hv]; auto. rewrite E, map_app. apply in_or_app; left; exact M.
    + intros N. exfalso. rewrite map_app in N. simpl in N.
      apply NoDup_remove_2 in N. apply N. apply in_or_app; left; exact M.
  - assert (Hs' : forall k, SSet.In k (SSet.add (Unit.id u) seen) <->
                            In k (map Unit.id (out ++ [u]))).
    { intros k. rewrite SSet.add_spec, Hs, map_app, in_app_iff. simpl. intuition. }
    destruct (IH _ _ Hs') as (H1 & (o & E & I & L) & H3 & H4 & H5).
    split; [exact H1|]. split; [|split; [|split]].
    + exists (u :: o). rewrite E, <- app_assoc. split; [reflexivity|].
      split; [intros x [<- | Hx]; [left; auto | right; auto] | simpl; lia].
    + intros N. apply H3. rewrite map_app. simpl.
      apply NoDup_app; auto. { constructor; [intros []|constructor]. }
      intros x Hx [<- | []]. assert (Hn : ~ SSet.In (Unit.id u) seen)
        by (intros Hi; apply SSet.mem_spec in Hi; congruence).
      apply Hn, Hs, Hx.
    + intros v [<- | Hv]; auto. rewrite E, map_app. apply in_or_app. left.
      rewrite map_app. apply in_or_app. right. left. reflexivity.
    + intros N. rewrite H5; [rewrite <- app_assoc; reflexivity|].
      rewrite <- app_assoc. exact N.
Qed.

Lemma uniqueUnits_props arr :
  NoDup (map Unit.id (uniqueUnits arr)) /\ incl (uniqueUnits arr) arr /\
  (length (uniqueUnits arr) <= length arr)%nat /\
  (forall u, In u arr -> In (Unit.id u) (map Unit.id (uniqueUnits arr))) /\
  (NoDup (map Unit.id arr) -> uniqueUnits arr = arr).
Proof.
  unfold uniqueUnits.
  destruct (uniqueUnits_fold arr SSet.empty []) as (H1 & (o & E & I & L) & H3 & H4 & H5).
  { intros k. split; [intros Hk; apply SSet.empty_spec in Hk; destruct Hk | intros []]. }
  cbv zeta in *. simpl in E. rewrite E.
  split; [rewrite <- E; apply H3; constructor|].
  split; [exact I|]. split; [exact L|].
  split; [intros u Hu; rewrite <- E; apply H4, Hu|].
  intros N. rewrite <- E. apply H5. exact N.
Qed.

Lemma firstn_length_app {A} (l1 l2 : list A) : firstn (length l1) (l1 ++ l2) = l1.
Proof. induction l1 as [|x l1 IH]; simpl; [reflexivity|]. rewrite IH. reflexivity. Qed.

Lemma uniqueUnits_mem seen (pre : list Unit.t) k :
  (forall k, SSet.In k seen <-> In k (map Unit.id pre)) ->
  SSet.mem k seen = existsb (fun v => String.eqb (Unit.id v) k) pre.
Proof.
  intros Hs. apply eq_true_iff_eq. rewrite SSet.mem_spec, Hs, existsb_exists, in_map_iff.
  split; [intros (v & <- & Hv); exists v; split; [exact Hv|apply String.eqb_refl]|].
  intros (v & Hv & E). apply String.eqb_eq in E. exists v; auto.
Qed.

(** The fold of [uniqueUnits], started after a prefix [pre] whose ids are
    [seen], appends exactly the units of [l] whose id occurs neither in
    [pre] nor earlier in [l]. *)
Lemma uniqueUnits_fold_exact (l : list Unit.t) : forall pre seen out,
  (forall k, SSet.In k seen <-> In k (map Unit.id pre)) ->
  snd (fold_left (fun '(seen, out) u =>
         if SSet.mem (Unit.id u) seen then (seen, out)
         else (SSet.add (Unit.id u) seen, out ++ [u])) l (seen, out)) =
  out ++ map snd (filter (fun p => negb (existsb
                    (fun v => String.eqb (Unit.id v) (Unit.id (snd p)))
                    (firstn (fst p) (pre ++ l))))
                 (enum_from (length pre) l)).
Proof.
  induction l as [|u l IH]; intros pre seen out Hs.
  { simpl. rewrite app_nil_r. reflexivity. }
  change (enum_from (length pre) (u :: l))
    with ((length pre, u) :: enum_from (S (length pre)) l).
  cbn [filter fst snd]. rewrite firstn_length_app.
  replace (pre ++ u :: l) with ((pre ++ [u]) ++ l) by (rewrite <- app_assoc; reflexivity).
  replace (S (length pre)) with (length (pre ++ [u]))
    by (rewrite length_app; simpl; lia).
  simpl fold_left. rewrite (uniqueUnits_mem seen pre (Unit.id u) Hs).
  destruct (existsb (fun v => String.eqb (Unit.id v) (Unit.id u)) pre) eqn:M; simpl negb.
  - apply IH. intros k. rewrite Hs, map_app, in_app_iff. simpl.
    split; [tauto|]. intros [H|[<-|[]]]; [exact H|].
    apply existsb_exists in M as (v & Hv & E). apply String.eqb_eq in E.
    rewrite <- E. apply in_map, Hv.
  - rewrite (IH (pre ++ [u])).
    + cbn [map]. rewrite <- app_assoc. reflexivity.
    + intros k. rewrite SSet.add_spec, Hs, map_app, in_app_iff. simpl. intuition.
Qed.

(** [uniqueUnits arr] is [arr] filtered to the units whose id does not
    occur earlier in [arr]. *)
Lemma uniqueUnits_exact arr :
  uniqueUnits arr =
  map snd (filter (fun p => negb (existsb
                    (fun v => String.eqb (Unit.id v) (Unit.id (snd p)))
                    (firstn (fst p) arr)))
                 (enum_from 0 arr)).
Proof.
  unfold uniqueUnits.
  apply (uniqueUnits_fold_exact arr [] SSet.empty []).
  intros k. split; [intros Hk; apply SSet.empty_spec in Hk; destruct Hk | intros []].
Qed.

Lemma unitsWithRegion_incl fu r : incl (unitsWithRegion fu r) fu.
Proof. intros u Hu. unfold unitsWithRegion in Hu. apply filter_In in Hu. tauto. Qed.

Lemma fillerPairs_incl fu r n p : In p (firstn n (fillerPairs fu r)) -> incl p fu.
Proof.
  intros Hp. apply In_firstn_In in Hp. unfold fillerPairs in Hp.
  apply generateCombinations_out in Hp as [_ Hp].
  eapply incl_tran; [exact Hp | apply unitsWithRegion_incl].
Qed.

Lemma emblem1Groups_incl regions e1 fu n g :
  In g (firstn n (emblem1Groups regions e1 fu)) -> incl g fu.
Proof.
  intros Hg. apply In_firstn_In in Hg. unfold emblem1Groups in Hg.
  destruct (0 <? _).
  - apply generateCombinations_out in Hg as [_ Hg].
    eapply incl_tran; [exact Hg | apply unitsWithRegion_incl].
  - destruct Hg as [<- | []]. intros x [].
Qed.

Lemma emblem2Groups_incl regions e2 fu n g :
  In g (firstn n (emblem2Groups regions e2 fu)) -> incl g fu.
Proof.
  intros Hg. apply In_firstn_In in Hg. unfold emblem2Groups in Hg.
  destruct (0 <? _).
  - apply generateCombinations_out in Hg as [_ Hg].
    eapply incl_tran; [exact Hg | apply unitsWithRegion_incl].
  - destruct Hg as [<- | []]. intros x [].
Qed.

Lemma targonOptions_in fu t : In t (targonOptions fu) -> In t fu.
Proof. intros Ht. apply In_firstn_In in Ht. apply unitsWithRegion_incl in Ht. exact Ht. Qed.

(** *** An invariant of [results] and [seenCompositions] over a whole run *)

Section StateInvariant.
Variables (regions : list Region.t) (emblem1 emblem2 : string).
Variables (fu : list Unit.t) (bound : Z).
Variable P : list SolverResult.t -> SSet.t -> Prop.

(** [P] survives every push the search can make: a validated team of at
    most [bound] units of [fu], whose key is not yet in the seen set. *)
Hypothesis P_push : forall rs seen team c,
  P rs seen -> incl team fu -> Z.of_nat (length team) <= bound ->
  valid (isValidComposition regions team emblem1 emblem2) = true ->
  SSet.mem (compositionKey team) seen = false ->
  P (rs ++ [SolverResult.mk
              (TeamComposition.mk team
                 (v_emblemAssignments (isValidComposition regions team emblem1 emblem2))
                 (v_activeRegions (isValidComposition regions team emblem1 emblem2)))
              (Z.of_nat (length team))
              (Z.of_nat (length (v_activeRegions (isValidComposition regions team emblem1 emblem2))))
              c])
    (SSet.add (compositionKey team) seen).

Local Abbreviation ok := (state_ok P).

Lemma smart_validate_st s team :
  incl team fu -> Z.of_nat (length team) <= bound -> ok s ->
  ok (smart_validate regions emblem1 emblem2 s team).
Proof.
  intros Hi Hl H. unfold smart_validate. cbv zeta.
  destruct (valid (isValidComposition regions team emblem1 emblem2)) eqn:V; [|exact H].
  destruct (SSet.mem _ _) eqn:M; [exact H|].
  unfold state_ok, push_result; simpl. apply P_push; auto.
Qed.

Lemma fill_body_st size wp wu team s fill :
  incl team fu -> incl fill fu ->
  Z.of_nat (length team + length fill) <= bound -> ok s ->
  ok (fst (fill_body regions emblem1 emblem2 size wp wu team s fill)).
Proof.
  intros Ht Hf Hl H. unfold fill_body. cbv zeta.
  destruct (_ <=? checkedCount s); [exact H|].
  assert (Hfull : incl (if wu then uniqueUnits (team ++ fill) else team ++ fill) fu /\
                  Z.of_nat (length (if wu then uniqueUnits (team ++ fill) else team ++ fill))
                    <= bound).
  { destruct (uniqueUnits_props (team ++ fill)) as (_ & I & L & _).
    assert (Hi : incl (team ++ fill) fu) by (apply incl_app; auto).
    destruct wu; split; [eapply incl_tran; eauto | rewrite length_app in L; lia
                        | exact Hi | rewrite length_app; lia]. }
  destruct Hfull as [Hi Hb].
  destruct (wp && _); [exact H|]. apply smart_validate_st; auto.
Qed.

Lemma pair_body_st size wp wu g1 g2 t s pair :
  incl (g1 ++ g2 ++ t :: pair) fu -> size <= bound -> ok s ->
  ok (fst (pair_body regions emblem1 emblem2 fu size wp wu g1 g2 t s pair)).
Proof.
  intros Hm Hs H. unfold pair_body. cbv zeta.
  destruct (_ <=? checkedCount s); [exact H|].
  set (members := g1 ++ g2 ++ t :: pair) in *.
  set (teamUnits := if wu then uniqueUnits members else members).
  assert (Ht : incl teamUnits fu).
  { unfold teamUnits. destruct wu; [|exact Hm].
    destruct (uniqueUnits_props members) as (_ & I & _). eapply incl_tran; eauto. }
  destruct (Z.of_nat (length teamUnits) =? size) eqn:E1.
  { apply Z.eqb_eq in E1. destruct (wp && _); [exact H|].
    apply smart_validate_st; auto. lia. }
  destruct (Z.of_nat (length teamUnits) <? size) eqn:E2; [|exact H].
  apply Z.ltb_lt in E2. simpl fst.
  apply for_break_inv_in; [|exact H].
  intros s' fill Hfill Hs'.
  apply generateCombinations_out in Hfill as [Hlen Hinc].
  apply fill_body_st; auto.
  - intros u Hu. apply Hinc in Hu. apply filter_In in Hu. tauto.
  - lia.
Qed.

Lemma targon_body_st size g1 g2 s t :
  incl g1 fu -> incl g2 fu -> In t fu -> size <= bound -> ok s ->
  ok (fst (targon_body regions emblem1 emblem2 fu size g1 g2 s t)).
Proof.
  intros H1 H2 Ht Hs H. unfold targon_body. cbv zeta. cbn [fst].
  repeat (apply for_break_inv_in;
    [ intros s' pair Hp Hs'; apply pair_body_st; auto;
      apply fillerPairs_incl in Hp;
      repeat (apply incl_app || apply incl_cons); auto |]).
  exact H.
Qed.

Lemma e2_body_st size g1 s g2 :
  incl g1 fu -> incl g2 fu -> size <= bound -> ok s ->
  ok (fst (e2_body regions emblem1 emblem2 fu size g1 s g2)).
Proof.
  intros H1 H2 Hs H. unfold e2_body. cbn [fst].
  apply for_break_inv_in; [|exact H].
  intros s' t Ht Hs'. apply targon_body_st; auto. apply targonOptions_in, Ht.
Qed.

Lemma e1_body_st size s g1 :
  incl g1 fu -> size <= bound -> ok s ->
  ok (fst (e1_body regions emblem1 emblem2 fu size s g1)).
Proof.
  intros H1 Hs H. unfold e1_body. cbn [fst].
  apply for_break_inv_in; [|exact H].
  intros s' g2 Hg Hs'. apply e2_body_st; auto. eapply emblem2Groups_incl, Hg.
Qed.

Lemma smart_phase_st size s :
  size <= bound -> ok s -> ok (smart_phase regions emblem1 emblem2 fu size s).
Proof.
  intros Hs H. unfold smart_phase.
  destruct (_ && _); [|exact H].
  apply for_break_inv_in; [|exact H].
  intros s' g1 Hg Hs'. apply e1_body_st; auto. eapply emblem1Groups_incl, Hg.
Qed.

Lemma brute_body_st size s team :
  incl team fu -> Z.of_nat (length team) <= bound -> ok s ->
  ok (fst (brute_body regions emblem1 emblem2 size s team)).
Proof.
  intros Hi Hl H. unfold brute_body. cbv zeta.
  destruct (_ <=? _); [exact H|]. destruct (_ <? _); [exact H|].
  destruct (valid (isValidComposition regions team emblem1 emblem2)) eqn:V; [|exact H].
  destruct (SSet.mem _ _) eqn:M; [exact H|].
  unfold state_ok, push_result; simpl. apply P_push; auto.
Qed.

Lemma size_iteration_st size s :
  size <= bound -> ok s -> ok (size_iteration regions emblem1 emblem2 fu size s).
Proof.
  intros Hs H. unfold size_iteration. cbv zeta.
  assert (H1 : ok (smart_phase regions emblem1 emblem2 fu size
                 (mkState (results s) (seenCompositions s) 0 (EvSize size :: trace s))))
    by (apply smart_phase_st; [exact Hs | exact H]).
  destruct (_ <? 10); [|exact H1].
  apply for_break_inv_in; [|exact H1].
  intros s' team Hteam Hs'.
  apply generateCombinations_out in Hteam as [Hlen Hinc].
  apply brute_body_st; auto. lia.
Qed.

Lemma size_loop_st fuel size s :
  ok s -> ok (size_loop regions emblem1 emblem2 fu bound fuel size s).
Proof.
  revert size s; induction fuel as [|fuel IH]; intros size s H; simpl; [exact H|].
  destruct (size <=? bound) eqn:E; [|exact H].
  destruct (MAX_TOTAL_RESULTS <=? _); [exact H|].
  apply IH, size_iteration_st; [apply Z.leb_le, E | exact H].
Qed.

End StateInvariant.

(** The invariant at the end of a run of [solveWorldRunes], before the
    final sort. *)
Lemma search_run_st (P : list SolverResult.t -> SSet.t -> Prop)
  units regions emblem1 emblem2 config s :
  let fu := filterUnits units config in
  let eff := Z.min (Z.min (SolverConfig.maxUnits config) (SolverConfig.maxBoardSize config))
                   (Z.of_nat (length fu)) in
  P [] SSet.empty ->
  (forall rs seen team c,
    P rs seen -> incl team fu -> Z.of_nat (length team) <= eff ->
    valid (isValidComposition regions team emblem1 emblem2) = true ->
    SSet.mem (compositionKey team) seen = false ->
    P (rs ++ [SolverResult.mk
                (TeamComposition.mk team
                   (v_emblemAssignments (isValidComposition regions team emblem1 emblem2))
                   (v_activeRegions (isValidComposition regions team emblem1 emblem2)))
                (Z.of_nat (length team))
                (Z.of_nat (length (v_activeRegions (isValidComposition regions team emblem1 emblem2))))
                c])
      (SSet.add (compositionKey team) seen)) ->
  search_run units regions emblem1 emblem2 config = Some s ->
  P (results s) (seenCompositions s).
Proof.
  intros fu eff H0 Hpush. unfold search_run.
  destruct (_ || _); [discriminate|].
  destruct (getRegionById regions emblem1); [|discriminate].
  destruct (getRegionById regions emblem2); [|discriminate].
  intros E. injection E as <-.
  apply (size_loop_st regions emblem1 emblem2 fu eff P Hpush). exact H0.
Qed.

(** The results of [solveWorldRunes] are the collected results, reordered. *)
Lemma solveWorldRunes_cases units regions emblem1 emblem2 config :
  solveWorldRunes units regions emblem1 emblem2 config = [] \/
  exists s, search_run units regions emblem1 emblem2 config = Some s /\
    Permutation (solveWorldRunes units regions emblem1 emblem2 config) (results s).
Proof.
  unfold solveWorldRunes. destruct (search_run units regions emblem1 emblem2 config) as [s|].
  - right. exists s. split; [reflexivity | apply sort_by_perm].
  - left. reflexivity.
Qed.

Lemma solveWorldRunes_result_shape_core units regions emblem1 emblem2 config :
  Forall (fun r =>
    let c := SolverResult.composition r in
    incl (TeamComposition.units c) (filterUnits units config) /\
    SolverResult.unitCount r = Z.of_nat (length (TeamComposition.units c)) /\
    SolverResult.unitCount r <=
      Z.min (Z.min (SolverConfig.maxUnits config) (SolverConfig.maxBoardSize config))
            (Z.of_nat (length (filterUnits units config))) /\
    SolverResult.regionCount r = Z.of_nat (length (TeamComposition.activeRegions c)))
    (solveWorldRunes units regions emblem1 emblem2 config).
Proof.
  destruct (solveWorldRunes_cases units regions emblem1 emblem2 config) as [-> | [s [Hs Hp]]];
    [constructor|].
  apply (Permutation_Forall (Permutation_sym Hp)).
  apply (search_run_st (fun rs _ => Forall _ rs) units regions emblem1 emblem2 config s);
    [constructor | | exact Hs].
  intros rs seen team c Hrs Hi Hl _ _. apply Forall_app. split; [exact Hrs|].
  constructor; [|constructor]. simpl. repeat split; auto.
Qed.

(** Every result of [solveWorldRunes] is a team of units of
    [filterUnits units config], of at most
    [min(maxUnits, maxBoardSize, filteredUnits.length)] units, whose
    [unitCount] and [regionCount] are the lengths of its unit list and of
    its active-region list. *)
Theorem solveWorldRunes_result_shape units regions emblem1 emblem2 config :
  Forall (fun r =>
    let c := SolverResult.composition r in
    incl (TeamComposition.units c) (filterUnits units config) /\
    SolverResult.unitCount r = Z.of_nat (length (TeamComposition.units c)) /\
    SolverResult.unitCount r <=
      Z.min (Z.min (SolverConfig.maxUnits config) (SolverConfig.maxBoardSize config))
            (Z.of_nat (length (filterUnits units config))) /\
    SolverResult.regionCount r = Z.of_nat (length (TeamComposition.activeRegions c)))
    (solveWorldRunes units regions emblem1 emblem2 config).
Proof. apply solveWorldRunes_result_shape_core. Qed.

(** [seenCompositions] holds exactly the keys of the collected results,
    and those keys are pairwise distinct. *)
Lemma solveWorldRunes_keys_NoDup units regions emblem1 emblem2 config :
  NoDup (map (fun r => compositionKey (TeamComposition.units (SolverResult.composition r)))
             (solveWorldRunes units regions emblem1 emblem2 config)).
Proof.
  set (key := fun r : SolverResult.t =>
                compositionKey (TeamComposition.units (SolverResult.composition r))).
  destruct (solveWorldRunes_cases units regions emblem1 emblem2 config) as [-> | [s [Hs Hp]]];
    [constructor|].
  apply (Permutation_NoDup (Permutation_map key (Permutation_sym Hp))).
  refine (proj1 (search_run_st
    (fun rs seen => NoDup (map key rs) /\ (forall k, SSet.In k seen <-> In k (map key rs)))
    units regions emblem1 emblem2 config s _ _ Hs)).
  - split; [constructor|]. intros k. split; [intros H; apply SSet.empty_spec in H; destruct H | intros []].
  - intros rs seen team c [N Hk] _ _ _ M. rewrite map_app. simpl. split.
    + apply NoDup_app; auto; [constructor; [intros []|constructor]|].
      intros x Hx [E | []]. subst x. apply Hk in Hx. apply SSet.mem_spec in Hx.
      unfold key in Hx; simpl in Hx. congruence.
    + intros k. rewrite SSet.add_spec, Hk, in_app_iff. unfold key at 2; simpl. intuition.
Qed.

(** ** [Array.prototype.sort] as modelled by [sort_by] *)

Section SortBy.
Context {A : Type} (cmp : A -> A -> Z).
Hypothesis cmp_total : forall a b, 0 < cmp a b -> cmp b a <= 0.

Lemma insert_by_Sorted x l :
  Sorted (fun a b => cmp a b <= 0) l -> Sorted (fun a b => cmp a b <= 0) (insert_by cmp x l).
Proof.
  induction l as [|y l IH]; intros H; simpl; [repeat constructor|].
  destruct (cmp x y <=? 0) eqn:E.
  - constructor; [exact H | constructor; apply Z.leb_le, E].
  - apply Z.leb_gt in E. apply Sorted_inv in H as [Hl Hh].
    constructor; [apply IH, Hl|].
    destruct l as [|z l]; simpl; [constructor; apply cmp_total; lia|].
    destruct (cmp x z <=? 0); constructor; [apply cmp_total; lia|].
    inversion Hh; assumption.
Qed.

Lemma sort_by_Sorted l : Sorted (fun a b => cmp a b <= 0) (sort_by cmp l).
Proof. induction l; simpl; [constructor | apply insert_by_Sorted; auto]. Qed.

End SortBy.

Lemma string_compare_OT a b : String.compare a b = String_as_OT.compare a b.
Proof. revert b; induction a; destruct b; simpl; auto. Qed.

Lemma string_cmp_le a b :
  string_cmp a b <= 0 <-> String_as_OT.compare a b <> Gt.
Proof.
  unfold string_cmp. rewrite string_compare_OT.
  destruct (String_as_OT.compare a b); split; intros; try lia; try congruence.
Qed.

Lemma string_compare_opp a b : String_as_OT.compare b a = CompOpp (String_as_OT.compare a b).
Proof. rewrite <- !string_compare_OT. apply String.compare_antisym. Qed.

Lemma string_cmp_total a b : 0 < string_cmp a b -> string_cmp b a <= 0.
Proof.
  unfold string_cmp. rewrite (string_compare_OT a b), (string_compare_OT b a), (string_compare_opp a b).
  destruct (String_as_OT.compare a b); simpl; lia.
Qed.

Lemma string_cmp_antisym a b : string_cmp a b <= 0 -> string_cmp b a <= 0 -> a = b.
Proof.
  rewrite !string_cmp_le, (string_compare_opp a b).
  destruct (String_as_OT.compare_spec a b) as [E | L | G]; simpl; intros; [exact E | congruence | congruence].
Qed.

Lemma string_cmp_trans a b c :
  string_cmp a b <= 0 -> string_cmp b c <= 0 -> string_cmp a c <= 0.
Proof.
  rewrite !string_cmp_le. intros H1 H2.
  destruct String_as_OT.lt_strorder as [_ Tr].
  destruct (String_as_OT.compare_spec a b) as [E1 | L1 | G1]; [unfold String_as_OT.eq in E1; subst; exact H2| |congruence].
  destruct (String_as_OT.compare_spec b c) as [E2 | L2 | G2]; [|
    | congruence].
  - unfold String_as_OT.eq in E2. subst. unfold String_as_OT.lt in L1. congruence.
  - assert (L : String_as_OT.lt a c) by (eapply Tr; eassumption).
    unfold String_as_OT.lt in L. congruence.
Qed.

Lemma sorted_perm_unique {A} (le : A -> A -> Prop)
  (antisym : forall a b, le a b -> le b a -> a = b) :
  forall l1 l2, StronglySorted le l1 -> StronglySorted le l2 -> Permutation l1 l2 -> l1 = l2.
Proof.
  induction l1 as [|a l1 IH]; intros l2 S1 S2 Hp.
  - symmetry. apply Permutation_nil, Hp.
  - destruct l2 as [|b l2]; [apply Permutation_sym, Permutation_nil in Hp; discriminate|].
    apply StronglySorted_inv in S1 as [S1 F1]. apply StronglySorted_inv in S2 as [S2 F2].
    assert (Eab : a = b).
    { assert (Ha : In a (b :: l2)) by (eapply Permutation_in; [exact Hp | left; reflexivity]).
      assert (Hb : In b (a :: l1))
        by (eapply Permutation_in; [apply Permutation_sym, Hp | left; reflexivity]).
      destruct Ha as [-> | Ha]; [reflexivity|]. destruct Hb as [-> | Hb]; [reflexivity|].
      rewrite List.Forall_forall in F1, F2. apply antisym; auto. }
    subst b. f_equal. apply IH; auto. eapply Permutation_cons_inv, Hp.
Qed.

Lemma compositionKey_perm_core t1 t2 :
  Permutation (map Unit.id t1) (map Unit.id t2) -> compositionKey t1 = compositionKey t2.
Proof.
  intros Hp. unfold compositionKey. f_equal.
  assert (SS : forall l, StronglySorted (fun a b => string_cmp a b <= 0) (sort_by string_cmp l)).
  { intros l. apply Sorted_StronglySorted; [intros a b c; apply string_cmp_trans|].
    apply sort_by_Sorted, string_cmp_total. }
  apply (sorted_perm_unique _ string_cmp_antisym); auto.
  eapply perm_trans; [apply sort_by_perm|].
  eapply perm_trans; [exact Hp | apply Permutation_sym, sort_by_perm].
Qed.

(** [compositionKey] depends only on the multiset of unit ids of a team:
    teams whose id lists are permutations of each other get the same key. *)
Theorem compositionKey_perm t1 t2 :
  Permutation (map Unit.id t1) (map Unit.id t2) -> compositionKey t1 = compositionKey t2.
Proof. apply compositionKey_perm_core. Qed.

(** No two results of [solveWorldRunes] are the same team: the unit-id
    lists of results at different positions are never permutations of
    each other. *)
Theorem solveWorldRunes_distinct_teams units regions emblem1 emblem2 config i j ri rj :
  i <> j ->
  nth_error (solveWorldRunes units regions emblem1 emblem2 config) i = Some ri ->
  nth_error (solveWorldRunes units regions emblem1 emblem2 config) j = Some rj ->
  ~ Permutation (map Unit.id (TeamComposition.units (SolverResult.composition ri)))
                (map Unit.id (TeamComposition.units (SolverResult.composition rj))).
Proof.
  intros Hij Hi Hj Hp. apply compositionKey_perm_core in Hp.
  pose proof (solveWorldRunes_keys_NoDup units regions emblem1 emblem2 config) as N.
  rewrite NoDup_nth_error in N. apply Hij, N.
  - rewrite length_map. apply nth_error_Some. congruence.
  - rewrite !nth_error_map, Hi, Hj. simpl. f_equal. exact Hp.
Qed.

Lemma Sorted_weaken {A} (R R' : A -> A -> Prop) (HR : forall a b, R a b -> R' a b) l :
  Sorted R l -> Sorted R' l.
Proof.
  induction 1 as [|a l Hs IH Hh]; constructor; [exact IH|].
  destruct Hh; constructor; auto.
Qed.

Lemma result_cmp_total a b : 0 < result_cmp a b -> result_cmp b a <= 0.
Proof.
  unfold result_cmp.
  destruct (SolverResult.totalCost a) as [ca|], (SolverResult.totalCost b) as [cb|];
  repeat match goal with |- context [?x =? ?y] => destruct (Z.eqb_spec x y) end;
  simpl; lia.
Qed.

(** The final [results.sort] of [solveWorldRunes]: results come by
    increasing [unitCount], then increasing [totalCost] (a missing cost
    counts as 0), then decreasing [regionCount]. *)
Theorem solveWorldRunes_sorted units regions emblem1 emblem2 config :
  Sorted (fun a b =>
    let ca := match SolverResult.totalCost a with Some c => c | None => 0 end in
    let cb := match SolverResult.totalCost b with Some c => c | None => 0 end in
    SolverResult.unitCount a < SolverResult.unitCount b \/
    (SolverResult.unitCount a = SolverResult.unitCount b /\
     (ca < cb \/ (ca = cb /\ SolverResult.regionCount b <= SolverResult.regionCount a))))
    (solveWorldRunes units regions emblem1 emblem2 config).
Proof.
  unfold solveWorldRunes. destruct (search_run units regions emblem1 emblem2 config) as [s|];
    [|constructor].
  eapply Sorted_weaken; [|apply sort_by_Sorted, result_cmp_total].
  intros a b. unfold result_cmp. cbv zeta.
  destruct (SolverResult.totalCost a) as [ca|], (SolverResult.totalCost b) as [cb|];
  repeat match goal with |- context [?x =? ?y] => destruct (Z.eqb_spec x y) end;
  simpl; lia.
Qed.

Lemma solveWorldRunes_distinct_teams_witness :
  match solveWorldRunes units_void regions_void "void"%string "b"%string config_5 with
  | r1 :: r2 :: _ =>
      ~ Permutation (map Unit.id (TeamComposition.units (SolverResult.composition r1)))
                    (map Unit.id (TeamComposition.units (SolverResult.composition r2)))
  | _ => False
  end.
Proof.
  destruct (solveWorldRunes units_void regions_void "void"%string "b"%string config_5)
    as [|r1 [|r2 l]] eqn:E; [vm_compute in E; discriminate | vm_compute in E; discriminate|].
  apply (solveWorldRunes_distinct_teams units_void regions_void "void"%string "b"%string
           config_5 0 1 r1 r2); [discriminate | rewrite E; reflexivity | rewrite E; reflexivity].
Defined.

(** ** [Map<string, number>] and [countRegionUnits] *)

Lemma map_get_upd (m : list (string * Z)) k v k' :
  map_get (map (fun p => if String.eqb (fst p) k then (k, v) else p) m) k' =
  if String.eqb k' k then
    (if existsb (fun p => String.eqb (fst p) k) m then Some v else None)
  else map_get m k'.
Proof.
  unfold map_get. induction m as [|[a b] m IH]; simpl.
  - destruct (String.eqb k' k); reflexivity.
  - destruct (String.eqb_spec a k) as [->|Na]; simpl.
    + destruct (String.eqb_spec k k') as [->|N]; simpl; [rewrite String.eqb_refl; reflexivity|].
      rewrite IH. destruct (String.eqb_spec k' k); [congruence|reflexivity].
    + destruct (String.eqb_spec a k') as [->|N]; simpl.
      * destruct (String.eqb_spec k' k); [congruence|reflexivity].
      * exact IH.
Qed.

Lemma map_get_snoc m k v k' :
  map_get (m ++ [(k, v)]) k' =
  match map_get m k' with Some x => Some x | None => if String.eqb k k' then Some v else None end.
Proof.
  unfold map_get. induction m as [|[a b] m IH]; simpl.
  - destruct (String.eqb k k'); reflexivity.
  - destruct (String.eqb a k'); [reflexivity | exact IH].
Qed.

Lemma map_get_none (m : list (string * Z)) k :
  existsb (fun p => String.eqb (fst p) k) m = false -> map_get m k = None.
Proof.
  unfold map_get. induction m as [|[a b] m IH]; simpl; [reflexivity|].
  destruct (String.eqb a k); [discriminate | exact IH].
Qed.

Lemma map_get_set m k v k' :
  map_get (map_set m k v) k' = if String.eqb k' k then Some v else map_get m k'.
Proof.
  unfold map_set. destruct (existsb (fun p => String.eqb (fst p) k) m) eqn:E.
  - rewrite map_get_upd, E. reflexivity.
  - rewrite map_get_snoc. destruct (String.eqb_spec k' k) as [->|N].
    + rewrite map_get_none by exact E. rewrite String.eqb_refl. reflexivity.
    + destruct (map_get m k'); [reflexivity|].
      destruct (String.eqb_spec k k'); [congruence | reflexivity].
Qed.

Lemma get_or0_set m k v k' :
  get_or0 (map_set m k v) k' = if String.eqb k' k then v else get_or0 m k'.
Proof. unfold get_or0. rewrite map_get_set. destruct (String.eqb k' k); reflexivity. Qed.

Lemma existsb_keys {A} (m : list (string * A)) k :
  existsb (fun p => String.eqb (fst p) k) m = includes (map fst m) k.
Proof.
  unfold includes. induction m as [|[a b] m IH]; simpl; [reflexivity|].
  rewrite IH, String.eqb_sym. reflexivity.
Qed.

Lemma map_set_keys m k v : map fst (map_set m k v) = set_add (map fst m) k.
Proof.
  unfold map_set, set_add. rewrite existsb_keys.
  destruct (includes (map fst m) k).
  - rewrite map_map. apply map_ext. intros [a b]. simpl.
    destruct (String.eqb_spec a k); simpl; congruence.
  - rewrite map_app. reflexivity.
Qed.

Lemma set_add_In s k x : In x (set_add s k) <-> In x s \/ x = k.
Proof.
  unfold set_add. destruct (includes s k) eqn:E.
  - apply includes_In in E. split; [tauto|]. intros [H | ->]; auto.
  - rewrite in_app_iff. simpl. intuition.
Qed.

Lemma set_add_NoDup s k : NoDup s -> NoDup (set_add s k).
Proof.
  unfold set_add. destruct (includes s k) eqn:E; intros N; [exact N|].
  apply NoDup_app; [exact N | repeat constructor; intros [] |].
  intros x Hx [Ex | []]. subst x. apply (proj2 (includes_In s k)) in Hx. congruence.
Qed.

(** The per-region pass of [countRegionUnits] over the regions [rs]. *)
Lemma count_regions_fold rs : forall m,
  let m' := fold_left (fun m region => map_set m region (get_or0 m region + 1)) rs m in
  (forall r, get_or0 m' r = get_or0 m r + Z.of_nat (count_occ string_dec rs r)) /\
  (forall r, In r (map fst m') <-> In r (map fst m) \/ In r rs) /\
  (NoDup (map fst m) -> NoDup (map fst m')).
Proof.
  induction rs as [|x rs IH]; intros m; cbv zeta; simpl.
  - split; [intros; lia|]. split; [tauto | auto].
  - destruct (IH (map_set m x (get_or0 m x + 1))) as [H1 [H2 H3]]. cbv zeta in H1, H2, H3.
    split; [|split].
    + intros r. rewrite H1, get_or0_set.
      destruct (String.eqb_spec r x) as [->|N];
        destruct (string_dec x x) as [_|]; try congruence;
        [rewrite Nat2Z.inj_succ; lia|].
      destruct (string_dec x r); [congruence | reflexivity].
    + intros r. rewrite H2, map_set_keys, set_add_In. intuition.
    + intros N. apply H3. rewrite map_set_keys. apply set_add_NoDup, N.
Qed.

Lemma countRegionUnits_spec_core us :
  (forall r, get_or0 (countRegionUnits us) r =
             Z.of_nat (count_occ string_dec (flat_map Unit.regions us) r)) /\
  (forall r, In r (map fst (countRegionUnits us)) <-> In r (flat_map Unit.regions us)) /\
  NoDup (map fst (countRegionUnits us)).
Proof.
  assert (E : countRegionUnits us =
    fold_left (fun m region => map_set m region (get_or0 m region + 1))
              (flat_map Unit.regions us) []).
  { unfold countRegionUnits. generalize (@nil (string * Z)).
    induction us as [|u us IH]; intros m; simpl; [reflexivity|].
    rewrite fold_left_app. apply IH. }
  rewrite E. destruct (count_regions_fold (flat_map Unit.regions us) []) as [H1 [H2 H3]].
  split; [|split].
  - intros r. rewrite H1. reflexivity.
  - intros r. rewrite H2. simpl. tauto.
  - apply H3. constructor.
Qed.

(** [countRegionUnits(units)] maps each region to the number of its
    occurrences in the units' region lists ([get] of a region no unit
    carries gives [undefined], read as 0); its keys are exactly the regions
    carried by some unit, each once. *)
Theorem countRegionUnits_spec us :
  (forall r, get_or0 (countRegionUnits us) r =
             Z.of_nat (count_occ string_dec (flat_map Unit.regions us) r)) /\
  (forall r, In r (map fst (countRegionUnits us)) <-> In r (flat_map Unit.regions us)) /\
  NoDup (map fst (countRegionUnits us)).
Proof. apply countRegionUnits_spec_core. Qed.

(** ** [isValidComposition] *)

Lemma find_carrier_none (team : list Unit.t) e :
  find (fun u => negb (includes (Unit.regions u) e)) team = None <->
  ~ exists u, In u team /\ ~ In e (Unit.regions u).
Proof.
  split.
  - intros F [u [I N]]. apply (find_none _ _ F) in I.
    apply negb_false_iff, includes_In in I. contradiction.
  - intros H. destruct (find _ team) as [u|] eqn:F; [|reflexivity].
    exfalso. apply find_some in F as [I N]. apply H. exists u. split; [exact I|].
    intros Hr. apply includes_In in Hr. rewrite Hr in N. discriminate.
Qed.

Lemma isValidComposition_active_core regions team e1 e2 :
  let v := isValidComposition regions team e1 e2 in
  NoDup (v_activeRegions v) /\
  forall r, In r (v_activeRegions v) <->
    (exists u1, In u1 team /\ ~ In e1 (Unit.regions u1)) /\
    (exists u2, In u2 team /\ ~ In e2 (Unit.regions u2)) /\
    (In r (flat_map Unit.regions team) \/ r = e1 \/ r = e2) /\
    exists region, getRegionById regions r = Some region /\
      required_or_1 (Region.requiredUnits region) <=
        Z.of_nat (count_occ string_dec (flat_map Unit.regions team) r) +
        (if String.eqb r e1 then 1 else 0) + (if String.eqb r e2 then 1 else 0).
Proof.
  cbv zeta. unfold isValidComposition. cbv zeta.
  destruct (find (fun u => negb (includes (Unit.regions u) e1)) team) as [u1|] eqn:F1.
  2: { split; [constructor|]. intros r; simpl. split; [intros []|].
       intros [C _]. apply find_carrier_none in F1. contradiction. }
  destruct (find (fun u => negb (includes (Unit.regions u) e2)) team) as [u2|] eqn:F2.
  2: { split; [constructor|]. intros r; simpl. split; [intros []|].
       intros [_ [C _]]. apply find_carrier_none in F2. contradiction. }
  assert (C1 : exists u, In u team /\ ~ In e1 (Unit.regions u)).
  { apply find_some in F1 as [I N]. exists u1. split; [exact I|].
    intros Hr. apply includes_In in Hr. rewrite Hr in N. discriminate. }
  assert (C2 : exists u, In u team /\ ~ In e2 (Unit.regions u)).
  { apply find_some in F2 as [I N]. exists u2. split; [exact I|].
    intros Hr. apply includes_In in Hr. rewrite Hr in N. discriminate. }
  destruct (countRegionUnits_spec_core team) as [Hc [Hk Hn]].
  set (rc := countRegionUnits team) in *.
  set (rc1 := map_set rc e1 (get_or0 rc e1 + 1)).
  set (rc2 := map_set rc1 e2 (get_or0 rc1 e2 + 1)).
  assert (K : forall r, In r (set_add (set_add (map fst rc2) e1) e2) <->
                        In r (flat_map Unit.regions team) \/ r = e1 \/ r = e2).
  { intros r. unfold rc2, rc1. rewrite !set_add_In, !map_set_keys, !set_add_In, Hk. tauto. }
  assert (N : NoDup (set_add (set_add (map fst rc2) e1) e2)).
  { unfold rc2, rc1. rewrite !map_set_keys. repeat apply set_add_NoDup. exact Hn. }
  assert (G : forall r, get_or0 rc2 r =
    Z.of_nat (count_occ string_dec (flat_map Unit.regions team) r) +
    (if String.eqb r e1 then 1 else 0) + (if String.eqb r e2 then 1 else 0)).
  { intros r. unfold rc2, rc1. rewrite !get_or0_set, !Hc.
    repeat match goal with |- context [String.eqb ?x ?y] => destruct (String.eqb_spec x y) end;
      subst; try congruence; lia. }
  match goal with |- context [if ?c then _ else _] => destruct c end; simpl;
  (split; [apply NoDup_filter, N|]);
  intros r; rewrite filter_In, K;
  (destruct (getRegionById regions r) as [region|];
   [rewrite Z.leb_le, G | ]); split;
  try (intros [H1 H2]; repeat split; auto; try discriminate; exists region; split; auto; fail);
  try (intros [H1 H2]; discriminate);
  try (intros [_ [_ [H1 [region' [H2 _]]]]]; discriminate);
  intros [_ [_ [H1 [region' [H2 H3]]]]]; injection H2 as <-; auto.
Qed.

(** The regions [isValidComposition(team, emblem1, emblem2)] reports as
    active: none when no unit can carry one of the emblems; otherwise,
    without repeats, every region carried by a unit of the team or equal to
    an emblem that exists in the catalog and whose count (units carrying it
    natively, plus one per emblem equal to it) reaches
    [requiredUnits || 1]. *)
Theorem isValidComposition_active regions team e1 e2 :
  let v := isValidComposition regions team e1 e2 in
  NoDup (v_activeRegions v) /\
  forall r, In r (v_activeRegions v) <->
    (exists u1, In u1 team /\ ~ In e1 (Unit.regions u1)) /\
    (exists u2, In u2 team /\ ~ In e2 (Unit.regions u2)) /\
    (In r (flat_map Unit.regions team) \/ r = e1 \/ r = e2) /\
    exists region, getRegionById regions r = Some region /\
      required_or_1 (Region.requiredUnits region) <=
        Z.of_nat (count_occ string_dec (flat_map Unit.regions team) r) +
        (if String.eqb r e1 then 1 else 0) + (if String.eqb r e2 then 1 else 0).
Proof. apply isValidComposition_active_core. Qed.

Lemma isValidComposition_valid_core regions team e1 e2 :
  let v := isValidComposition regions team e1 e2 in
  valid v = (4 <=? Z.of_nat (length (v_activeRegions v))) /\
  (valid v = false -> v_emblemAssignments v = []).
Proof.
  cbv zeta. unfold isValidComposition. cbv zeta.
  destruct (find (fun u => negb (includes (Unit.regions u) e1)) team); [|split; reflexivity].
  destruct (find (fun u => negb (includes (Unit.regions u) e2)) team); [|split; reflexivity].
  match goal with |- context [if ?c then _ else _] => destruct c eqn:E end; simpl.
  - apply Z.ltb_lt in E. split; [symmetry; apply Z.leb_gt; lia | reflexivity].
  - apply Z.ltb_ge in E. split; [symmetry; apply Z.leb_le; lia | discriminate].
Qed.

(** [isValidComposition] answers [valid] exactly when at least four
    regions are active, and an invalid answer carries no emblem
    assignment. *)
Theorem isValidComposition_valid regions team e1 e2 :
  let v := isValidComposition regions team e1 e2 in
  valid v = (4 <=? Z.of_nat (length (v_activeRegions v))) /\
  (valid v = false -> v_emblemAssignments v = []).
Proof. apply isValidComposition_valid_core. Qed.

Lemma isValidComposition_valid_len regions team e1 e2 :
  valid (isValidComposition regions team e1 e2) = true <->
  (4 <= length (v_activeRegions (isValidComposition regions team e1 e2)))%nat.
Proof.
  destruct (isValidComposition_valid_core regions team e1 e2) as [E _]. cbv zeta in E.
  rewrite E, Z.leb_le. lia.
Qed.

(** A valid team stays valid when units are added to it, in any order:
    a carrier for each emblem remains, region counts only grow, and so the
    set of active regions only grows. *)
Theorem isValidComposition_mono regions team extra team' e1 e2 :
  Permutation team' (team ++ extra) ->
  valid (isValidComposition regions team e1 e2) = true ->
  valid (isValidComposition regions team' e1 e2) = true.
Proof.
  intros Hp Hv. rewrite isValidComposition_valid_len in *.
  destruct (isValidComposition_active_core regions team e1 e2) as [N A].
  destruct (isValidComposition_active_core regions team' e1 e2) as [_ A'].
  cbv zeta in N, A, A'.
  assert (Hin : forall u, In u team -> In u team')
    by (intros u Hu; eapply Permutation_in; [apply Permutation_sym, Hp | apply in_or_app; auto]).
  assert (Hc : forall r, (count_occ string_dec (flat_map Unit.regions team) r <=
                          count_occ string_dec (flat_map Unit.regions team') r)%nat).
  { intros r. rewrite (proj1 (Permutation_count_occ string_dec _ _)
                        (Permutation_flat_map Unit.regions Hp) r).
    rewrite flat_map_app, count_occ_app. lia. }
  enough (I : incl (v_activeRegions (isValidComposition regions team e1 e2))
                   (v_activeRegions (isValidComposition regions team' e1 e2)))
    by (pose proof (NoDup_incl_length N I); lia).
  intros r Hr. apply A in Hr as [[u1 [I1 N1]] [[u2 [I2 N2]] [R [region [G L]]]]].
  apply A'. split; [exists u1; auto|]. split; [exists u2; auto|]. split.
  - destruct R as [R | R]; [left | right; exact R].
    apply in_flat_map in R as [u [Iu Ru]]. apply in_flat_map. exists u; auto.
  - exists region. split; [exact G|]. specialize (Hc r). lia.
Qed.

Lemma isValidComposition_mono_witness :
  Permutation [mkU "d2" ["d"]; mkU "d1" ["d"]; mkU "c1" ["c"]]%string
              ([mkU "c1" ["c"]; mkU "d1" ["d"]]%string ++ [mkU "d2" ["d"]]%string) /\
  valid (isValidComposition regions_cd [mkU "c1" ["c"]; mkU "d1" ["d"]]%string
           "A"%string "B"%string) = true /\
  valid (isValidComposition regions_cd [mkU "d2" ["d"]; mkU "d1" ["d"]; mkU "c1" ["c"]]%string
           "A"%string "B"%string) = true.
Proof.
  assert (P : Permutation [mkU "d2" ["d"]; mkU "d1" ["d"]; mkU "c1" ["c"]]%string
              ([mkU "c1" ["c"]; mkU "d1" ["d"]]%string ++ [mkU "d2" ["d"]]%string)).
  { simpl. eapply perm_trans; [apply perm_swap|].
    eapply perm_trans; [apply perm_skip, perm_swap|]. apply perm_swap. }
  assert (V : valid (isValidComposition regions_cd [mkU "c1" ["c"]; mkU "d1" ["d"]]%string
                       "A"%string "B"%string) = true) by (vm_compute; reflexivity).
  split; [exact P|]. split; [exact V|].
  exact (isValidComposition_mono regions_cd _ _ _ "A"%string "B"%string P V).
Defined.

(** ** [filterUnits] *)

Section Partition.
Variable f : Unit.t -> bool.
Local Abbreviation cmp01 :=
  (fun a b : Unit.t => (if f a then 1 else 0) - (if f b then 1 else 0)).

Lemma insert_by_01_skip x n u :
  f x = true -> Forall (fun y => f y = false) n ->
  insert_by cmp01 x (n ++ u) = n ++ insert_by cmp01 x u.
Proof.
  intros Hx. induction 1 as [|y n Hy _ IH]; [reflexivity|].
  simpl. rewrite Hx, Hy. simpl. rewrite IH. reflexivity.
Qed.

Lemma sort_by_01 l :
  sort_by cmp01 l = filter (fun u => negb (f u)) l ++ filter f l.
Proof.
  induction l as [|x l IH]; [reflexivity|]. simpl. rewrite IH.
  destruct (f x) eqn:Hx; simpl.
  - rewrite insert_by_01_skip; [| exact Hx |].
    + f_equal. destruct (filter f l) as [|y u] eqn:U; simpl; [reflexivity|].
      assert (Hy : f y = true)
        by (assert (I : In y (filter f l)) by (rewrite U; left; reflexivity);
            apply filter_In in I; tauto).
      rewrite Hx, Hy. reflexivity.
    + apply Forall_forall. intros y I. apply filter_In in I as [_ I].
      destruct (f y); [discriminate | reflexivity].
  - destruct (filter (fun u => negb (f u)) l ++ filter f l) as [|y r]; simpl; [reflexivity|].
    rewrite Hx. destruct (f y); reflexivity.
Qed.

End Partition.

Lemma filterUnits_spec_core us config :
  let keep u :=
    match SolverConfig.requiredUnits config with
    | Some ((_ :: _) as req) => includes req (Unit.id u) | _ => true end &&
    match SolverConfig.excludedUnits config with
    | Some ((_ :: _) as exc) => negb (includes exc (Unit.id u)) | _ => true end in
  filterUnits us config =
    filter (fun u => negb (Unit.unlockable u)) (filter keep us) ++
    filter Unit.unlockable (filter keep us).
Proof.
  cbv zeta. unfold filterUnits. rewrite sort_by_01.
  assert (FF : forall (f g : Unit.t -> bool) l, filter g (filter f l) = filter (fun u => f u && g u) l).
  { intros f g l. induction l as [|u l IH]; simpl; [reflexivity|].
    destruct (f u); simpl; [destruct (g u); simpl|]; rewrite IH; reflexivity. }
  assert (FT : forall l : list Unit.t, l = filter (fun _ => true) l).
  { induction l as [|u l IH]; simpl; [reflexivity | rewrite <- IH; reflexivity]. }
  f_equal; f_equal;
  destruct (SolverConfig.requiredUnits config) as [[|r req]|];
  destruct (SolverConfig.excludedUnits config) as [[|x exc]|];
  rewrite ?FF; try apply FT;
  apply filter_ext; intros u; rewrite ?andb_true_r; reflexivity.
Qed.

(** [filterUnits(units, config)] keeps, in their input order, the units
    whose id is in [requiredUnits] (when that list is non-empty) and not in
    [excludedUnits] (when that list is non-empty), and moves the unlockable
    ones after all the others without reordering either group. *)
Theorem filterUnits_spec us config :
  let keep u :=
    match SolverConfig.requiredUnits config with
    | Some ((_ :: _) as req) => includes req (Unit.id u) | _ => true end &&
    match SolverConfig.excludedUnits config with
    | Some ((_ :: _) as exc) => negb (includes exc (Unit.id u)) | _ => true end in
  filterUnits us config =
    filter (fun u => negb (Unit.unlockable u)) (filter keep us) ++
    filter Unit.unlockable (filter keep us).
Proof. apply filterUnits_spec_core. Qed.

Lemma filterUnits_In us config u :
  In u (filterUnits us config) <->
  In u us /\
  (forall req, SolverConfig.requiredUnits config = Some req -> req <> [] -> In (Unit.id u) req) /\
  (forall exc, SolverConfig.excludedUnits config = Some exc -> ~ In (Unit.id u) exc).
Proof.
  rewrite filterUnits_spec_core, in_app_iff, !filter_In.
  assert (R : (match SolverConfig.requiredUnits config with
               | Some ((_ :: _) as req) => includes req (Unit.id u) | _ => true end = true) <->
              (forall req, SolverConfig.requiredUnits config = Some req -> req <> [] ->
                           In (Unit.id u) req)).
  { destruct (SolverConfig.requiredUnits config) as [[|r req]|].
    - split; [intros _ req E N; injection E as <-; congruence | reflexivity].
    - rewrite includes_In. split; [intros H req' E _; injection E as <-; exact H|].
      intros H. apply H; [reflexivity | discriminate].
    - split; [intros _ req E; discriminate | reflexivity]. }
  assert (X : (match SolverConfig.excludedUnits config with
               | Some ((_ :: _) as exc) => negb (includes exc (Unit.id u)) | _ => true end = true) <->
              (forall exc, SolverConfig.excludedUnits config = Some exc -> ~ In (Unit.id u) exc)).
  { destruct (SolverConfig.excludedUnits config) as [[|x exc]|].
    - split; [intros _ exc E; injection E as <-; intros [] | reflexivity].
    - rewrite negb_true_iff. split.
      + intros H exc' E I. injection E as <-. apply includes_In in I. congruence.
      + intros H. destruct (includes (x :: exc) (Unit.id u)) eqn:I; [|reflexivity].
        apply includes_In in I. exfalso. exact (H _ eq_refl I).
    - split; [intros _ exc E; discriminate | reflexivity]. }
  rewrite <- R, <- X, <- andb_true_iff.
  destruct (Unit.unlockable u); simpl; tauto.
Qed.

(** No result of [solveWorldRunes] uses a unit outside the catalog, a unit
    of [excludedUnits], or, when [requiredUnits] is a non-empty list, a unit
    outside it. *)
Theorem solveWorldRunes_respects_config units regions emblem1 emblem2 config :
  Forall (fun r => Forall (fun u =>
      In u units /\
      (forall req, SolverConfig.requiredUnits config = Some req -> req <> [] ->
                   In (Unit.id u) req) /\
      (forall exc, SolverConfig.excludedUnits config = Some exc -> ~ In (Unit.id u) exc))
    (TeamComposition.units (SolverResult.composition r)))
  (solveWorldRunes units regions emblem1 emblem2 config).
Proof.
  eapply Forall_impl; [|apply solveWorldRunes_result_shape_core].
  intros r [I _]. apply Forall_forall. intros u Hu. apply filterUnits_In, I, Hu.
Qed.

(** ** The unlock filter: what [filtered] and [unlockSuggestions] hold *)

Lemma dedup_fold rs : forall m,
  NoDup (map fst m) -> Forall (fun p => fst p = unitSignature (snd p)) m ->
  let m' := fold_left (fun m r =>
    let sig := unitSignature r in
    if existsb (fun p => String.eqb (fst p) sig) m then m else m ++ [(sig, r)]) rs m in
  NoDup (map fst m') /\ Forall (fun p => fst p = unitSignature (snd p)) m' /\
  (forall r, In r rs -> In (unitSignature r) (map fst m')) /\
  (forall k, In k (map fst m) -> In k (map fst m')).
Proof.
  induction rs as [|r rs IH]; intros m N F; cbv zeta; simpl; [repeat split; auto; intros _ []|].
  rewrite existsb_keys.
  destruct (includes (map fst m) (unitSignature r)) eqn:E.
  - destruct (IH m N F) as (N' & F' & H1 & H2). split; [exact N'|]. split; [exact F'|].
    split; [|exact H2]. intros x [<- | Hx]; auto. apply H2, includes_In, E.
  - assert (N1 : NoDup (map fst (m ++ [(unitSignature r, r)]))).
    { rewrite map_app. apply NoDup_app; [exact N | repeat constructor; intros [] |].
      intros x Hx [Ex | []]. subst x. apply (proj2 (includes_In _ _)) in Hx. simpl in Hx. congruence. }
    assert (F1 : Forall (fun p => fst p = unitSignature (snd p)) (m ++ [(unitSignature r, r)]))
      by (apply Forall_app; split; [exact F | repeat constructor]).
    destruct (IH _ N1 F1) as (N' & F' & H1 & H2). split; [exact N'|]. split; [exact F'|].
    split.
    + intros x [<- | Hx]; auto. apply H2. rewrite map_app. apply in_or_app. right. left. reflexivity.
    + intros k Hk. apply H2. rewrite map_app. apply in_or_app. left. exact Hk.
Qed.

Lemma dedupBySignature_spec rs :
  NoDup (map unitSignature (dedupBySignature rs)) /\
  (forall r, In r rs -> exists r', In r' (dedupBySignature rs) /\ unitSignature r' = unitSignature r).
Proof.
  unfold dedupBySignature.
  destruct (dedup_fold rs [] ltac:(constructor) ltac:(constructor)) as (N & F & H1 & _).
  cbv zeta in *.
  set (m := fold_left _ rs []) in *.
  assert (E : map unitSignature (map snd m) = map fst m).
  { rewrite map_map. symmetry. apply map_ext_in. intros p Hp.
    rewrite List.Forall_forall in F. apply F, Hp. }
  split; [rewrite E; exact N|].
  intros r Hr. apply H1, in_map_iff in Hr as [[k r'] [Ek Hp]]. simpl in Ek. subst k.
  exists r'. split; [apply in_map_iff; exists (unitSignature r, r'); auto|].
  rewrite List.Forall_forall in F. symmetry. exact (F _ Hp).
Qed.

(** The results the unlock filter keeps use no locked unit (unlockable and
    not unlocked), have pairwise distinct unit signatures, and cover every
    signature of an input result that uses no locked unit. *)
Theorem applyUnlockFilter_filtered_spec results unlockedIds :
  let v := applyUnlockFilter results unlockedIds in
  let unlocked := match unlockedIds with Some l => l | None => [] end in
  Forall (fun r => Forall (fun u => isLocked unlocked u = false)
                          (TeamComposition.units (SolverResult.composition r))) (filtered v) /\
  NoDup (map unitSignature (filtered v)) /\
  (forall r, In r results ->
     Forall (fun u => isLocked unlocked u = false)
            (TeamComposition.units (SolverResult.composition r)) ->
     exists r', In r' (filtered v) /\ unitSignature r' = unitSignature r).
Proof.
  cbv zeta. unfold applyUnlockFilter. cbv zeta. cbn [filtered].
  set (unlocked := match unlockedIds with Some l => l | None => [] end).
  set (l0 := filter _ results).
  destruct (dedupBySignature_spec l0) as [N C].
  destruct (dedupBySignature_sub l0) as [I _].
  split; [|split; [exact N|]].
  - apply Forall_forall. intros r Hr. apply I in Hr. unfold l0 in Hr.
    apply filter_In in Hr as [_ Hr]. apply negb_true_iff in Hr.
    apply Forall_forall. intros u Hu.
    destruct (isLocked unlocked u) eqn:L; [|reflexivity].
    assert (existsb (isLocked unlocked) (TeamComposition.units (SolverResult.composition r)) = true)
      by (apply existsb_exists; eauto). congruence.
  - intros r Hr Fr. apply C. unfold l0. apply filter_In. split; [exact Hr|].
    apply negb_true_iff. destruct (existsb _ _) eqn:Ex; [|reflexivity].
    apply existsb_exists in Ex as [u [Hu Lu]]. rewrite List.Forall_forall in Fr.
    rewrite (Fr u Hu) in Lu. discriminate.
Qed.

(** The unlock suggestions are locked units without repeated ids.  When
    there are any, the filter raised the minimum team size, and they are
    exactly the distinct locked units of one input result [r] of minimal
    [unitCount], chosen among those results with the fewest locked units. *)
Theorem applyUnlockFilter_suggestions_spec results unlockedIds :
  let v := applyUnlockFilter results unlockedIds in
  let unlocked := match unlockedIds with Some l => l | None => [] end in
  let lockedOf r := filter (isLocked unlocked) (TeamComposition.units (SolverResult.composition r)) in
  Forall (fun u => isLocked unlocked u = true) (unlockSuggestions v) /\
  NoDup (map Unit.id (unlockSuggestions v)) /\
  (unlockSuggestions v <> [] ->
     filteredHasHigherMin v = true /\
     exists r, In r results /\ SolverResult.unitCount r = minimalAll v /\
       incl (unlockSuggestions v) (lockedOf r) /\
       (forall u, In u (lockedOf r) -> In (Unit.id u) (map Unit.id (unlockSuggestions v))) /\
       (forall r', In r' results -> SolverResult.unitCount r' = minimalAll v ->
          (length (lockedOf r) <= length (lockedOf r'))%nat)).
Proof.
  cbv zeta. unfold applyUnlockFilter. cbv zeta.
  cbn [unlockSuggestions filteredHasHigherMin minimalAll].
  set (unlocked := match unlockedIds with Some l => l | None => [] end).
  set (lockedOf := fun r : SolverResult.t =>
         filter (isLocked unlocked) (TeamComposition.units (SolverResult.composition r))).
  set (mar := filter (fun r => SolverResult.unitCount r =? minUnitCount results) results).
  match goal with |- context [sort_by ?c mar] => set (cmpL := c) end.
  assert (EL : forall a b, cmpL a b = Z.of_nat (length (lockedOf a)) - Z.of_nat (length (lockedOf b)))
    by reflexivity.
  set (hm := minUnitCount results <? minUnitCount (dedupBySignature _)).
  destruct (hm && negb (Nat.eqb (length mar) 0)) eqn:B;
    [|split; [constructor|]; split; [constructor|]; intros N; congruence].
  apply andb_true_iff in B as [Hm _].
  assert (SS : StronglySorted (fun a b => cmpL a b <= 0) (sort_by cmpL mar)).
  { apply Sorted_StronglySorted; [intros a b c; rewrite !EL; lia|].
    apply sort_by_Sorted. intros a b. rewrite !EL. lia. }
  pose proof (sort_by_perm cmpL mar) as P.
  destruct (sort_by cmpL mar) as [|best rest];
    [split; [constructor|]; split; [constructor|]; intros N; congruence|].
  change (filter (isLocked unlocked) (TeamComposition.units (SolverResult.composition best)))
    with (lockedOf best).
  destruct (uniqueUnits_props (lockedOf best)) as (N & I & _ & C & _).
  split; [|split; [exact N|]].
  { apply Forall_forall. intros u Hu. apply I in Hu. unfold lockedOf in Hu.
    apply filter_In in Hu. tauto. }
  intros _. split; [exact Hm|].
  assert (Hb : In best mar) by (eapply Permutation_in; [exact P | left; reflexivity]).
  unfold mar in Hb. apply filter_In in Hb as [Hb Eb]. apply Z.eqb_eq in Eb.
  exists best. split; [exact Hb|]. split; [exact Eb|]. split; [exact I|]. split; [exact C|].
  intros r' Hr' Er'.
  assert (Hm' : In r' (best :: rest)).
  { eapply Permutation_in; [apply Permutation_sym, P|].
    unfold mar. apply filter_In. split; [exact Hr'|]. apply Z.eqb_eq, Er'. }
  destruct Hm' as [<- | Hm']; [apply Nat.le_refl|].
  apply StronglySorted_inv in SS as [_ F]. rewrite List.Forall_forall in F.
  specialize (F r' Hm'). rewrite EL in F. unfold lockedOf in F. lia.
Qed.

(** ** The display order of ResultsDisplay *)

Lemma take_group_spec current l :
  fst (take_group current l) ++ snd (take_group current l) = l /\
  Forall (fun r => same_key current r = true) (fst (take_group current l)).
Proof.
  induction l as [|r l IH]; simpl; [split; [reflexivity | constructor]|].
  destruct (same_key current r) eqn:E; [|split; [reflexivity | constructor]].
  destruct (take_group current l) as [g rest]. simpl in *. destruct IH as [H1 H2].
  split; [rewrite H1; reflexivity | constructor; assumption].
Qed.

Lemma same_key_refl r : same_key r r = true.
Proof. unfold same_key. rewrite !Z.eqb_refl. reflexivity. Qed.

Lemma pickIdx_fold prev (l : list SolverResult.t) : forall bi bd k,
  (bi < k \/ bi = 0)%nat ->
  let '(bi', _, k') := fold_left (fun '(bestIdx, bestDiff, k) r =>
      let diff := symmetricDiffSize prev (unitIdSet r) in
      if bestDiff <? diff then (k, diff, S k) else (bestIdx, bestDiff, S k)) l (bi, bd, k) in
  k' = (k + length l)%nat /\ (bi' < k' \/ bi' = 0)%nat.
Proof.
  induction l as [|r l IH]; intros bi bd k H; simpl; [split; [lia | exact H]|].
  match goal with |- context [if ?c then _ else _] => destruct c end.
  - specialize (IH k (symmetricDiffSize prev (unitIdSet r)) (S k) ltac:(lia)).
    destruct (fold_left _ l _) as [[bi' bd'] k']. destruct IH as [E H']. split; lia.
  - specialize (IH bi bd (S k) ltac:(lia)).
    destruct (fold_left _ l _) as [[bi' bd'] k']. destruct IH as [E H']. split; lia.
Qed.

Lemma pickIdx_lt prev rem : rem <> [] -> (pickIdx prev rem < length rem)%nat.
Proof.
  intros N. unfold pickIdx.
  pose proof (pickIdx_fold prev rem 0 (-1) 0 ltac:(lia)) as H.
  destruct (fold_left _ rem _) as [[bi bd] k]. destruct H as [E H].
  destruct rem; [congruence|]. simpl in *. lia.
Qed.

Lemma greedy_perm fuel : forall prev rem,
  (length rem <= fuel)%nat -> Permutation (greedy fuel prev rem) rem.
Proof.
  induction fuel as [|fuel IH]; intros prev rem L.
  - destruct rem; [constructor | simpl in L; lia].
  - simpl. destruct rem as [|r0 rem0] eqn:Er; [constructor|]. rewrite <- Er.
    assert (Hi : (pickIdx (unitIdSet prev) rem < length rem)%nat)
      by (apply pickIdx_lt; congruence).
    unfold splice1. set (i := pickIdx (unitIdSet prev) rem) in *.
    destruct (nth_error rem i) as [x|] eqn:Ex; [|apply nth_error_None in Ex; lia].
    destruct (nth_error_split rem i Ex) as [l1 [l2 [E1 L1]]].
    assert (F : firstn i rem ++ skipn (S i) rem = l1 ++ l2).
    { rewrite E1, <- L1, firstn_app, Nat.sub_diag, firstn_O, app_nil_r, firstn_all.
      replace (S (length l1)) with (length l1 + 1)%nat by lia.
      rewrite skipn_app, skipn_all2 by lia.
      replace (length l1 + 1 - length l1)%nat with 1%nat by lia. reflexivity. }
    assert (F2 : firstn i rem ++ skipn i rem0 = l1 ++ l2) by (rewrite <- F, Er; reflexivity).
    rewrite F2. eapply perm_trans; [apply perm_skip, IH|].
    + rewrite <- Er, E1, length_app in L. simpl in L. rewrite length_app. lia.
    + rewrite E1. apply Permutation_middle.
Qed.

Lemma orderGroup_perm g : Permutation (orderGroup g) g.
Proof.
  unfold orderGroup. pose proof (sort_by_perm (fun a b => signatureHash a - signatureHash b) g) as P.
  destruct (sort_by _ g) as [|first rem]; [exact P|].
  eapply perm_trans; [|exact P]. apply perm_skip, greedy_perm. lia.
Qed.

Lemma regroup_perm fuel : forall l, (length l <= fuel)%nat -> Permutation (regroup fuel l) l.
Proof.
  induction fuel as [|fuel IH]; intros l L.
  - destruct l; [constructor | simpl in L; lia].
  - simpl. destruct l as [|current l0] eqn:El; [constructor|]. rewrite <- El.
    destruct (take_group_spec current l) as [E _].
    destruct (take_group current l) as [g rest] eqn:T. simpl in E.
    assert (Hg : g <> []).
    { intros ->. subst l. simpl in T. rewrite same_key_refl in T.
      destruct (take_group current l0) as [g' r']. discriminate. }
    assert (Lr : (length rest <= fuel)%nat).
    { rewrite <- El, <- E, length_app in L. destruct g; [congruence|]. simpl in L. lia. }
    rewrite <- E. apply Permutation_app; [|apply IH, Lr].
    destruct (Nat.leb (length g) 1); [apply Permutation_refl | apply orderGroup_perm].
Qed.

(** The display order key: [unitCount], then total cost, then the number
    of 4-cost units. *)
Local Abbreviation key_le := (fun a b =>
  SolverResult.unitCount a < SolverResult.unitCount b \/
  (SolverResult.unitCount a = SolverResult.unitCount b /\
   (getTotalCost a < getTotalCost b \/
    (getTotalCost a = getTotalCost b /\ getFourCostCount a <= getFourCostCount b)))).

Lemma StronglySorted_app_rel {A} (R : A -> A -> Prop) l1 l2 a b :
  StronglySorted R (l1 ++ l2) -> In a l1 -> In b l2 -> R a b.
Proof.
  induction l1 as [|x l1 IH]; simpl; intros H Ha Hb; [destruct Ha|].
  apply StronglySorted_inv in H as [H F]. destruct Ha as [<- | Ha]; [|auto].
  rewrite List.Forall_forall in F. apply F, in_or_app. right. exact Hb.
Qed.

Lemma StronglySorted_all {A} (R : A -> A -> Prop) (l : list A) :
  (forall a b, In a l -> In b l -> R a b) -> StronglySorted R l.
Proof.
  induction l as [|x l IH]; intros H; constructor.
  - apply IH. intros a b Ha Hb. apply H; right; assumption.
  - apply Forall_forall. intros b Hb. apply H; [left; reflexivity | right; exact Hb].
Qed.

Lemma same_key_eq current r :
  same_key current r = true ->
  SolverResult.unitCount r = SolverResult.unitCount current /\
  getTotalCost r = getTotalCost current /\ getFourCostCount r = getFourCostCount current.
Proof. unfold same_key. rewrite !andb_true_iff, !Z.eqb_eq. tauto. Qed.

Lemma StronglySorted_app_r {A} (R : A -> A -> Prop) l1 l2 :
  StronglySorted R (l1 ++ l2) -> StronglySorted R l2.
Proof.
  induction l1 as [|x l1 IH]; simpl; intros H; [exact H|].
  apply StronglySorted_inv in H as [H _]. auto.
Qed.

Lemma regroup_sorted fuel : forall l, (length l <= fuel)%nat ->
  StronglySorted key_le l -> StronglySorted key_le (regroup fuel l).
Proof.
  induction fuel as [|fuel IH]; intros l L S; [constructor|].
  simpl. destruct l as [|current l0] eqn:El; [constructor|]. rewrite <- El.
  destruct (take_group_spec current l) as [E F].
  destruct (take_group current l) as [g rest] eqn:T. simpl in E, F.
  assert (Hg : g <> []).
  { intros ->. subst l. simpl in T. rewrite same_key_refl in T.
    destruct (take_group current l0) as [g' r']. discriminate. }
  assert (Lr : (length rest <= fuel)%nat).
  { rewrite <- El, <- E, length_app in L. destruct g; [congruence|]. simpl in L. lia. }
  rewrite <- El, <- E in S.
  set (g' := if Nat.leb (length g) 1 then g else orderGroup g).
  assert (Pg : Permutation g' g)
    by (unfold g'; destruct (Nat.leb (length g) 1); [apply Permutation_refl | apply orderGroup_perm]).
  apply StronglySorted_app.
  - apply StronglySorted_all. intros a b Ha Hb.
    apply (Permutation_in _ Pg) in Ha, Hb. rewrite List.Forall_forall in F.
    apply F, same_key_eq in Ha, Hb. lia.
  - apply IH; [exact Lr | eapply StronglySorted_app_r; exact S].
  - intros a b Ha Hb. apply (Permutation_in _ Pg) in Ha.
    apply (Permutation_in _ (regroup_perm fuel rest Lr)) in Hb.
    exact (StronglySorted_app_rel _ g rest a b S Ha Hb).
Qed.

Lemma base_cmp_total a b : 0 < base_cmp a b -> base_cmp b a <= 0.
Proof.
  unfold base_cmp. cbv zeta.
  repeat match goal with |- context [?x =? ?y] => destruct (Z.eqb_spec x y) end;
  simpl; lia.
Qed.

(** The list ResultsDisplay renders ([sortedResults]) holds exactly the
    filtered results, each as often as in [filtered], ordered by
    [unitCount], then total cost (the sum of unit costs when [totalCost] is
    unset), then number of 4-cost units; the diversity reordering only
    permutes results with equal keys. *)
Theorem sortedResults_spec filtered :
  Permutation (sortedResults filtered) filtered /\
  StronglySorted key_le (sortedResults filtered).
Proof.
  unfold sortedResults. cbv zeta. split.
  - eapply perm_trans; [apply regroup_perm; lia | apply sort_by_perm].
  - apply regroup_sorted; [lia|].
    apply Sorted_StronglySorted; [intros a b c; lia|].
    eapply Sorted_weaken; [|apply sort_by_Sorted, base_cmp_total].
    intros a b. unfold base_cmp. cbv zeta.
    repeat match goal with |- context [?x =? ?y] => destruct (Z.eqb_spec x y) end;
    simpl; lia.
Qed.

(** ** The Regions column of [renderTable] *)

Lemma map_get_In (m : list (string * Z)) k v :
  NoDup (map fst m) -> In (k, v) m -> map_get m k = Some v.
Proof.
  unfold map_get. induction m as [|[a b] m IH]; simpl; intros N I; [destruct I|].
  inversion N as [|? ? Na Nm]; subst.
  destruct I as [E | I].
  - injection E as -> ->. rewrite String.eqb_refl. reflexivity.
  - destruct (String.eqb_spec a k) as [->|]; [|apply IH; auto].
    exfalso. apply Na. apply in_map_iff. exists (k, v). auto.
Qed.

Lemma map_get_some_In (m : list (string * Z)) k :
  In k (map fst m) -> exists v, map_get m k = Some v /\ In (k, v) m.
Proof.
  unfold map_get. induction m as [|[a b] m IH]; simpl; intros I; [destruct I|].
  destruct (String.eqb_spec a k) as [->|N]; [exists b; auto|].
  destruct I as [E | I]; [congruence|]. destruct (IH I) as [v [E H]]. exists v. auto.
Qed.

Lemma activeRegionBadges_In lc regions c r :
  NoDup (map fst (badgeCounts lc c)) ->
  In r (map fst (activeRegionBadges lc regions c)) <->
  In r (map fst (badgeCounts lc c)) /\
  match getRegionById regions r with
  | Some region => required_or_1 (Region.requiredUnits region)
  | None => 1
  end <= get_or0 (badgeCounts lc c) r.
Proof.
  intros N. unfold activeRegionBadges. split.
  - intros I. apply in_map_iff in I as [[k v] [E I]]. simpl in E. subst k.
    apply filter_In in I as [I L]. apply Z.leb_le in L.
    split; [apply in_map_iff; exists (r, v); auto|].
    unfold get_or0. rewrite (map_get_In _ r v N I). exact L.
  - intros [I L]. destruct (map_get_some_In _ _ I) as [v [E Iv]].
    unfold get_or0 in L. rewrite E in L.
    apply in_map_iff. exists (r, v). split; [reflexivity|].
    apply filter_In. split; [exact Iv | apply Z.leb_le, L].
Qed.

(** For a composition built from a valid answer of [isValidComposition],
    the Regions column of [renderTable] shows exactly the regions the
    validator reports active, plus every region id that is carried by a
    unit or emblem but missing from the catalog (the validator skips those,
    the table shows them with [requiredUnits || 1] taken as 1). *)
Theorem renderTable_badges_valid lc regions team e1 e2 :
  let v := isValidComposition regions team e1 e2 in
  valid v = true ->
  forall r,
    In r (map fst (activeRegionBadges lc regions
                     (TeamComposition.mk team (v_emblemAssignments v) (v_activeRegions v)))) <->
    In r (v_activeRegions v) \/
    (getRegionById regions r = None /\ (In r (flat_map Unit.regions team) \/ r = e1 \/ r = e2)).
Proof.
  cbv zeta. intros Hv r.
  destruct (isValidComposition_active_core regions team e1 e2) as [_ A]. cbv zeta in A.
  destruct (isValidComposition_sound regions team e1 e2 Hv) as [_ [u1 [u2 [I1 [N1 [I2 [N2 Ea]]]]]]].
  rewrite A. rewrite Ea.
  set (c := TeamComposition.mk team _ _).
  set (rc := countRegionUnits (sortedUnits lc team)).
  assert (Eb : badgeCounts lc c =
    map_set (map_set rc e1 (get_or0 rc e1 + 1)) e2
            (get_or0 (map_set rc e1 (get_or0 rc e1 + 1)) e2 + 1)) by reflexivity.
  assert (P : Permutation (flat_map Unit.regions (sortedUnits lc team)) (flat_map Unit.regions team))
    by (apply Permutation_flat_map, sort_by_perm).
  destruct (countRegionUnits_spec_core (sortedUnits lc team)) as [Hc [Hk Hn]].
  fold rc in Hc, Hk, Hn.
  assert (N : NoDup (map fst (badgeCounts lc c))).
  { rewrite Eb, !map_set_keys. repeat apply set_add_NoDup. exact Hn. }
  rewrite (activeRegionBadges_In lc regions c r N).
  assert (K : In r (map fst (badgeCounts lc c)) <->
              In r (flat_map Unit.regions team) \/ r = e1 \/ r = e2).
  { rewrite Eb, !map_set_keys, !set_add_In, Hk.
    split; intros H; (destruct H as [[H | H] | H]; [left; eapply Permutation_in; eauto | |])
      || (destruct H as [H | [H | H]]; [left; left; eapply Permutation_in; [apply Permutation_sym, P | exact H] | |]);
      tauto. }
  assert (G : get_or0 (badgeCounts lc c) r =
    Z.of_nat (count_occ string_dec (flat_map Unit.regions team) r) +
    (if String.eqb r e1 then 1 else 0) + (if String.eqb r e2 then 1 else 0)).
  { rewrite Eb, !get_or0_set, !Hc.
    rewrite !(proj1 (Permutation_count_occ string_dec _ _) P).
    repeat match goal with |- context [String.eqb ?x ?y] => destruct (String.eqb_spec x y) end;
      subst; try congruence; lia. }
  rewrite K, G.
  assert (Pos : (In r (flat_map Unit.regions team) \/ r = e1 \/ r = e2) ->
    1 <= Z.of_nat (count_occ string_dec (flat_map Unit.regions team) r) +
         (if String.eqb r e1 then 1 else 0) + (if String.eqb r e2 then 1 else 0)).
  { intros [H | [-> | ->]].
    - apply (count_occ_In string_dec) in H.
      destruct (String.eqb r e1), (String.eqb r e2); lia.
    - rewrite String.eqb_refl. destruct (String.eqb e1 e2); lia.
    - rewrite String.eqb_refl. destruct (String.eqb e2 e1); lia. }
  assert (C1 : exists u, In u team /\ ~ In e1 (Unit.regions u)) by (exists u1; auto).
  assert (C2 : exists u, In u team /\ ~ In e2 (Unit.regions u)) by (exists u2; auto).
  destruct (getRegionById regions r) as [region|]; split.
  - intros [H L]. left. repeat split; auto. exists region. auto.
  - intros [(_ & _ & H & region' & E & L) | [D _]]; [|discriminate].
    injection E as <-. auto.
  - intros [H L]. right. auto.
  - intros [(_ & _ & H & region' & E & L) | [_ H]]; [discriminate|]. auto.
Qed.

Lemma search_run_emblems units regions emblem1 emblem2 config s :
  search_run units regions emblem1 emblem2 config = Some s ->
  getRegionById regions emblem1 <> None /\ getRegionById regions emblem2 <> None.
Proof.
  unfold search_run. destruct (_ || _); [discriminate|].
  destruct (getRegionById regions emblem1); [|discriminate].
  destruct (getRegionById regions emblem2); [|discriminate].
  intros _. split; discriminate.
Qed.

(** For every result of [solveWorldRunes], the Regions column that
    [renderTable] draws for it lists exactly the result's [activeRegions]
    plus the region ids carried by its units that are missing from the
    catalog, whatever [localeCompare] does. *)
Theorem solveWorldRunes_badges localeCompare units regions emblem1 emblem2 config :
  Forall (fun res =>
    let c := SolverResult.composition res in
    forall r, In r (map fst (activeRegionBadges localeCompare regions c)) <->
      In r (TeamComposition.activeRegions c) \/
      (getRegionById regions r = None /\ In r (flat_map Unit.regions (TeamComposition.units c))))
    (solveWorldRunes units regions emblem1 emblem2 config).
Proof.
  destruct (solveWorldRunes_cases units regions emblem1 emblem2 config) as [-> | [s [Hs Hp]]];
    [constructor|].
  destruct (search_run_emblems _ _ _ _ _ _ Hs) as [G1 G2].
  apply (Permutation_Forall (Permutation_sym Hp)).
  apply (search_run_st (fun rs _ => Forall _ rs) units regions emblem1 emblem2 config s);
    [constructor | | exact Hs].
  intros rs seen team c Hrs _ _ Hv _. apply Forall_app. split; [exact Hrs|].
  constructor; [|constructor]. cbv zeta. simpl. intros r.
  rewrite (renderTable_badges_valid localeCompare regions team emblem1 emblem2 Hv r).
  split; [|tauto]. intros [H | [N [H | [-> | ->]]]]; tauto.
Qed.

(** ** Remaining properties of the solver's helpers *)

(** [uniqueUnits(arr)] keeps the first unit of each id, in order: it is
    exactly [arr] filtered, position by position, to the units whose id
    does not occur at an earlier position of [arr] (so an order-preserving
    sub-list of [arr] that keeps the first occurrence of each id).  Hence
    its ids are pairwise distinct, every unit of it is in [arr] and it is
    never longer, every id of [arr] survives, and an array whose ids are
    already distinct comes back unchanged. *)
Theorem uniqueUnits_spec arr :
  uniqueUnits arr =
    map snd (filter (fun p => negb (existsb
                      (fun v => String.eqb (Unit.id v) (Unit.id (snd p)))
                      (firstn (fst p) arr)))
                   (enum_from 0 arr)) /\
  NoDup (map Unit.id (uniqueUnits arr)) /\ incl (uniqueUnits arr) arr /\
  (length (uniqueUnits arr) <= length arr)%nat /\
  (forall u, In u arr -> In (Unit.id u) (map Unit.id (uniqueUnits arr))) /\
  (NoDup (map Unit.id arr) -> uniqueUnits arr = arr).
Proof. split; [apply uniqueUnits_exact | exact (uniqueUnits_props arr)]. Qed.

(** [generateCombinations] with a negative [size] yields nothing: no
    array ever has that length, so [backtrack] never emits. *)
Theorem generateCombinations_negative_size {T} (items : list T) size maxResults :
  size < 0 -> generateCombinations items size maxResults = [].
Proof.
  intros N. destruct (generateCombinations items size maxResults) as [|c l] eqn:E; [reflexivity|].
  exfalso. assert (I : In c (generateCombinations items size maxResults)) by (rewrite E; left; reflexivity).
  apply generateCombinations_out in I as [L _]. lia.
Qed.

Lemma generateCombinations_negative_size_witness :
  -1 < 0 /\ generateCombinations [1; 2; 3]%nat (-1) 10 = [].
Proof.
  split; [lia|]. apply generateCombinations_negative_size. lia.
Defined.

Lemma compositionKey_perm_witness :
  Permutation (map Unit.id [mkU "b" []; mkU "a" []]%string) (map Unit.id [mkU "a" []; mkU "b" []]%string) /\
  compositionKey [mkU "b" []; mkU "a" []]%string = compositionKey [mkU "a" []; mkU "b" []]%string.
Proof.
  assert (P : Permutation (map Unit.id [mkU "b" []; mkU "a" []]%string)
                          (map Unit.id [mkU "a" []; mkU "b" []]%string)) by (simpl; apply perm_swap).
  split; [exact P | exact (compositionKey_perm _ _ P)].
Defined.
